(** * vndbjs-core: a shallow embedding of [Connection] and [Vndb]

    The two classes of the library are embedded as executable Rocq
    definitions: [Connection] (src/Connection.js), one TLS socket that
    speaks VNDB's text protocol framed by the End-of-Transmission
    character, and [Vndb] (the pool class), which composes a rate limiter
    and a pool of [Connection]s.

    JavaScript objects live in a store and are passed around by
    reference; promises are values that are pending, resolved or
    rejected; the peer of a socket is a script of the events it will
    deliver. *)

From Stdlib Require Import ZArith String Ascii List DecimalString Lia Sorted.
From stdpp Require Import base option list gmap sets strings.

(** ** JavaScript values, promises and sequential code *)

Module Js.

(** Error objects, told apart by their constructor and message. *)
Inductive error :=
  | SocketError (cause : string)
  | TypeError (msg : string)
  | PoolError (msg : string).

(** What a promise is rejected with, or a [throw] throws: the source
    rejects both with plain strings and with error objects. *)
Inductive reason :=
  | RString (s : string)
  | RError (e : error).

Inductive promise (A : Type) :=
  | Pending
  | Resolved (v : A)
  | Rejected (r : reason).
Arguments Pending {A}.
Arguments Resolved {A} v.
Arguments Rejected {A} r.

(** [resolve] and [reject] settle a pending promise and do nothing to a
    settled one. *)
Definition resolve {A} (v : A) (p : promise A) : promise A :=
  match p with Pending => Resolved v | _ => p end.

Definition reject {A} (r : reason) (p : promise A) : promise A :=
  match p with Pending => Rejected r | _ => p end.

(** A piece of sequential code over a state [S]: it returns, throws, or
    is suspended for ever at an [await] of a promise that never
    settles. *)
Inductive outcome (A : Type) :=
  | Ret (a : A)
  | Throw (r : reason)
  | Hang.
Arguments Ret {A} a.
Arguments Throw {A} r.
Arguments Hang {A}.

Definition M (S A : Type) : Type := S -> outcome A * S.

Definition ret {S A} (a : A) : M S A := fun s => (Ret a, s).

Definition bind {S A B} (c : M S A) (k : A -> M S B) : M S B :=
  fun s =>
    match c s with
    | (Ret a, s') => k a s'
    | (Throw r, s') => (Throw r, s')
    | (Hang, s') => (Hang, s')
    end.

Definition throw {S A} (r : reason) : M S A := fun s => (Throw r, s).

Definition get {S} : M S S := fun s => (Ret s, s).

Definition modify {S} (f : S -> S) : M S unit := fun s => (Ret tt, f s).

(** [await p]: the value of a resolved promise, a throw of the reason
    of a rejected one. *)
Definition await {S A} (p : promise A) : M S A :=
  fun s =>
    match p with
    | Resolved v => (Ret v, s)
    | Rejected r => (Throw r, s)
    | Pending => (Hang, s)
    end.

(** [try { body } catch (err) { handler err }] *)
Definition try_catch {S A} (body : M S A) (handler : reason -> M S A) : M S A :=
  fun s =>
    match body s with
    | (Throw r, s') => handler r s'
    | res => res
    end.

(** [try { body } finally { fin }]: [fin] runs when [body] returns or
    throws; a throw of [fin] replaces the outcome of [body]. *)
Definition try_finally {S A} (body : M S A) (fin : M S unit) : M S A :=
  fun s =>
    match body s with
    | (Hang, s') => (Hang, s')
    | (res, s') =>
        match fin s' with
        | (Ret _, s'') => (res, s'')
        | (Throw r, s'') => (Throw r, s'')
        | (Hang, s'') => (Hang, s'')
        end
    end.

(** Code that runs on one component of the state. *)
Definition zoom {S T A} (proj : S -> T) (inj : T -> S -> S) (c : M T A) : M S A :=
  fun s => let '(o, t) := c (proj s) in (o, inj t s).

(** [new Promise((resolve, reject) => { ... })]: the executor runs with
    the new promise as part of its state; a throw of the executor
    rejects the promise. *)
Definition new_Promise {S A} (executor : M (S * promise A) unit) : M S (promise A) :=
  fun s =>
    match executor (s, Pending) with
    | (Throw r, (s', p)) => (Ret (reject r p), s')
    | (_, (s', p)) => (Ret p, s')
    end.

(** [new Promise(async (resolve, reject) => { ... })]: the executor is
    an async function, so what it throws rejects the promise of the
    async function itself, which nobody holds; the new promise is not
    settled by it. *)
Definition new_Promise_async {S A} (executor : M (S * promise A) unit) : M S (promise A) :=
  fun s => let '(_, (s', p)) := executor (s, Pending) in (Ret p, s').

(** Inside an executor: the two callbacks, and code of the enclosing
    scope. *)
Definition call_resolve {S A} (v : A) : M (S * promise A) unit :=
  modify (fun sp => (fst sp, resolve v (snd sp))).

Definition call_reject {S A} (r : reason) : M (S * promise A) unit :=
  modify (fun sp => (fst sp, reject r (snd sp))).

Definition outer {S A B} (c : M S B) : M (S * promise A) B :=
  zoom fst (fun s sp => (s, snd sp)) c.

End Js.

Import Js.

Declare Scope js_scope.
Delimit Scope js_scope with js.
Notation "x <- c ;; k" := (bind c (fun x => k))
  (at level 100, c at next level, right associativity) : js_scope.
Notation "c ;;; k" := (bind c (fun _ => k))
  (at level 100, right associativity) : js_scope.

Local Open Scope js_scope.

(** ** src/Connection.js *)

Module Connection.

Definition NO_CONNECTION : string := "No connection to destroy".
Definition UNAUTHORIZED_CONNECTION : string := "Secure connection could not be established".

(** *** The socket and its peer

    What [tls.connect] and the socket's event emitter do is the
    environment of the class. A peer is a script: how the handshake
    ends, and the events the socket emits afterwards, in order. *)

Inductive Handshake :=
  | SecureConnect (cert_ok : bool) (* the callback of [tls.connect] runs; [cert_ok] is [socket.authorized] *)
  | HandshakeError (e : error)     (* 'error' is emitted before the handshake completes *)
  | NoHandshake.                   (* neither ever happens *)

Inductive SockEvent :=
  | Data (d : string)
  | Error (e : error)
  | Ended.

Record Peer := {
  handshake : Handshake;
  events : list SockEvent }.

Record TLSSocket := {
  authorized : bool;
  sock_encoding : option string;   (* [setEncoding] *)
  written : list string;           (* the arguments of [socket.write], oldest first *)
  end_requested : bool;            (* [socket.end()] was called *)
  incoming : list SockEvent }.     (* events not yet emitted *)

Definition tls_connect (peer : Peer) : TLSSocket :=
  {| authorized := match handshake peer with SecureConnect ok => ok | _ => false end;
     sock_encoding := None;
     written := [];
     end_requested := false;
     incoming := events peer |}.

Definition setEncoding (enc : string) (sock : TLSSocket) : TLSSocket :=
  {| authorized := authorized sock; sock_encoding := Some enc; written := written sock;
     end_requested := end_requested sock; incoming := incoming sock |}.

Definition socket_write (data : string) (sock : TLSSocket) : TLSSocket :=
  {| authorized := authorized sock; sock_encoding := sock_encoding sock;
     written := written sock ++ [data];
     end_requested := end_requested sock; incoming := incoming sock |}.

Definition socket_end (sock : TLSSocket) : TLSSocket :=
  {| authorized := authorized sock; sock_encoding := sock_encoding sock; written := written sock;
     end_requested := true; incoming := incoming sock |}.

Definition set_incoming (evs : list SockEvent) (sock : TLSSocket) : TLSSocket :=
  {| authorized := authorized sock; sock_encoding := sock_encoding sock; written := written sock;
     end_requested := end_requested sock; incoming := evs |}.

(** *** The class *)

Record Connection := {
  eot : string;
  uri : string;
  port : Z;
  socket : option TLSSocket;       (* [None] is [undefined] *)
  encoding : string;
  socketID : string }.

Definition set_socket (sock : option TLSSocket) (this : Connection) : Connection :=
  {| eot := eot this; uri := uri this; port := port this; socket := sock;
     encoding := encoding this; socketID := socketID this |}.

(** [constructor(client)]; [shortid] is what [shortid.generate()]
    returns. *)
Definition constructor (client shortid : string) : Connection :=
  {| eot := String "004" EmptyString;
     uri := "api.vndb.org";
     port := 19535;
     socket := None;
     encoding := "utf8";
     socketID := "vndbjs-" +:+ client +:+ "-" +:+ shortid |}.

(** [this.socket.m(...)]: a TypeError when [this.socket] is
    [undefined]. *)
Definition this_socket (m : string) : M Connection TLSSocket :=
  fun this =>
    match socket this with
    | Some sock => (Ret sock, this)
    | None => (Throw (RError (TypeError ("Cannot read property '" +:+ m +:+ "' of undefined"))), this)
    end.

Definition update_socket (f : TLSSocket -> TLSSocket) : M Connection unit :=
  modify (fun this => set_socket (f <$> socket this) this).

(** [connect()] *)
Definition connect (peer : Peer) : M Connection (promise string) :=
  new_Promise (
    outer (modify (set_socket (Some (tls_connect peer)))) ;;;
    match handshake peer with
    | SecureConnect _ =>
        (* the callback; the 'error' listener is removed *)
        sock <- outer (this_socket "authorized") ;;
        if authorized sock then
          this <- outer get ;;
          outer (update_socket (setEncoding (encoding this))) ;;;
          call_resolve "ok"
        else
          call_reject (RString UNAUTHORIZED_CONNECTION)
    | HandshakeError err => call_reject (RError err)
    | NoHandshake => ret tt
    end).

(** The 'end' listener of [destroy]: whether 'end' is emitted, and the
    events left. No 'data' or 'error' listener is registered there;
    after an 'error' the socket emits no 'end'. *)
Fixpoint await_end (evs : list SockEvent) : bool * list SockEvent :=
  match evs with
  | [] => (false, [])
  | Ended :: rest => (true, rest)
  | Data _ :: rest => await_end rest
  | Error _ :: rest => (false, rest)
  end.

(** [destroy()] *)
Definition destroy : M Connection (promise string) :=
  new_Promise (
    this <- outer get ;;
    (if socket this is None then call_reject (RString NO_CONNECTION) else ret tt) ;;;
    sock <- outer (this_socket "once") ;;
    outer (update_socket socket_end) ;;;
    let '(ended, rest) := await_end (incoming sock) in
    outer (update_socket (set_incoming rest)) ;;;
    if ended then call_resolve "ok" else ret tt).

(** [String.prototype.endsWith] *)
Definition endsWith (s search : string) : bool :=
  let n := String.length s in
  let m := String.length search in
  if Nat.ltb n m then false
  else String.eqb (substring (n - m) m s) search.

(** The listeners of [read]: [chunk] is the data accumulated so far.
    The result is the promise once the events have been emitted, and
    the events left. The 'error' listener rejects; 'end' has no
    listener. *)
Fixpoint read_events (eot chunk : string) (evs : list SockEvent)
  : promise string * list SockEvent :=
  match evs with
  | [] => (Pending, [])
  | Data data :: rest =>
      let chunk := chunk +:+ data in
      if endsWith chunk eot then (Resolved chunk, rest)
      else read_events eot chunk rest
  | Error err :: rest => (Rejected (RError err), rest)
  | Ended :: rest => read_events eot chunk rest
  end.

(** [read()] *)
Definition read : M Connection (promise string) :=
  new_Promise (
    sock <- outer (this_socket "once") ;;
    this <- outer get ;;
    let '(p, rest) := read_events (eot this) "" (incoming sock) in
    outer (update_socket (set_incoming rest)) ;;;
    modify (fun sp => (fst sp, p))).

(** [write(message)] *)
Definition write (message : string) : M Connection unit :=
  this <- get ;;
  _ <- this_socket "write" ;;
  update_socket (socket_write (message +:+ eot this)).

(** *** The login command *)

(** The values the login data holds. *)
Inductive jsval :=
  | JUndefined
  | JNull
  | JNumber (n : Z)
  | JString (s : string).

(** An object literal: its own properties in insertion order. *)
Definition jsobject : Type := list (string * jsval).

(** [replacer(key, value)] *)
Definition replacer (key : string) (value : jsval) : jsval :=
  if value is JNull then JUndefined else value.

Definition dquote : ascii := "034"%char.
Definition backslash : ascii := "092"%char.

Definition hex_digit (n : nat) : ascii :=
  nth n (list_ascii_of_string "0123456789abcdef") "0"%char.

(** [JSON.stringify] of a string: QuoteJSONString. *)
Definition quote_char (c : ascii) : string :=
  let n := nat_of_ascii c in
  let esc (d : ascii) := String backslash (String d EmptyString) in
  if Nat.eqb n 34 then esc dquote
  else if Nat.eqb n 92 then esc backslash
  else if Nat.eqb n 8 then esc "b"%char
  else if Nat.eqb n 12 then esc "f"%char
  else if Nat.eqb n 10 then esc "n"%char
  else if Nat.eqb n 13 then esc "r"%char
  else if Nat.eqb n 9 then esc "t"%char
  else if Nat.ltb n 32 then
    String backslash ("u00" +:+ String (hex_digit (n / 16)) (String (hex_digit (n mod 16)) EmptyString))
  else String c EmptyString.

Fixpoint quote_chars (s : string) : string :=
  match s with
  | EmptyString => EmptyString
  | String c rest => quote_char c +:+ quote_chars rest
  end.

Definition QuoteJSONString (s : string) : string :=
  String dquote (quote_chars s +:+ String dquote EmptyString).

(** SerializeJSONProperty for a property of the object: the replacer
    is called first; [None] is [undefined], the property is left
    out. *)
Definition SerializeJSONProperty (rep : string -> jsval -> jsval)
    (key : string) (value : jsval) : option string :=
  match rep key value with
  | JNull => Some "null"
  | JNumber n => Some (NilZero.string_of_int (Z.to_int n))
  | JString s => Some (QuoteJSONString s)
  | JUndefined => None
  end.

(** SerializeJSONObject: the members that are written, as pairs of a
    key and the text of its value. *)
Fixpoint members (rep : string -> jsval -> jsval) (props : jsobject)
  : list (string * string) :=
  match props with
  | [] => []
  | (P, value) :: rest =>
      match SerializeJSONProperty rep P value with
      | Some strP => (P, strP) :: members rep rest
      | None => members rep rest
      end
  end.

Definition member_text (m : string * string) : string :=
  QuoteJSONString (fst m) +:+ ":" +:+ snd m.

(** [JSON.stringify(value, replacer)] for an object of [jsval]s. The
    first call of the replacer, with key [""] and the object itself,
    returns the object: it is not [null]. *)
Definition JSON_stringify (value : jsobject) (rep : string -> jsval -> jsval) : string :=
  "{" +:+ String.concat "," (member_text <$> members rep value) +:+ "}".

(** The object literal [data] of [login]; [version] is the [version]
    of package.json. *)
Definition login_data (version : string) (this : Connection) (username password : jsval)
  : jsobject :=
  [ ("protocol", JNumber 1);
    ("client", JString (socketID this));
    ("clientver", JString version);
    ("username", username);
    ("password", password) ].

(** [login(username, password)] *)
Definition login (version : string) (username password : jsval)
  : M Connection (promise string) :=
  new_Promise_async (
    this <- outer get ;;
    let data := login_data version this username password in
    outer (write ("login " +:+ JSON_stringify data replacer)) ;;;
    try_catch (
      p <- outer read ;;
      response <- await p ;;
      if String.eqb response ("ok" +:+ eot this) then call_resolve response
      else call_reject (RString response))
    (fun err => call_reject err)).

End Connection.

(** ** The pool of generic-pool *)

Module Pool.
Import Connection.

(** A reference to a [Connection] object in the store. *)
Abbreviation ref := nat (only parsing).

(** The options object handed to [createPool]. *)
Record Config := {
  min : Z;
  max : Z;
  evictionRunIntervalMillis : Z;
  numTestsPerRun : Z;
  softIdleTimeoutMillis : Z;
  idleTimeoutMillis : Z;
  acquireTimeoutMillis : Z }.

(** The Sessions the pool holds: the queue of idle ones and the set of
    those checked out. *)
Record State := {
  available : list ref;
  loans : gset ref;
  draining : bool }.

(** The calls made on the pool and on the limiter, latest last. *)
Inductive Call :=
  | RemoveTokens (n : Z)
  | Acquire
  | Release (client : ref)
  | Drain
  | Clear.

(** The store of [Connection] objects, the environment ([shortids]:
    what [shortid.generate()] returns on its next calls; [peers]: the
    peers of the next sockets opened), the pool, and the calls made so
    far. *)
Record World := {
  heap : gmap ref Connection;
  shortids : list string;
  peers : list Peer;
  pool : State;
  calls : list Call }.

Definition set_heap (h : gmap ref Connection) (w : World) : World :=
  {| heap := h; shortids := shortids w; peers := peers w; pool := pool w; calls := calls w |}.

Definition set_shortids (l : list string) (w : World) : World :=
  {| heap := heap w; shortids := l; peers := peers w; pool := pool w; calls := calls w |}.

Definition set_peers (l : list Peer) (w : World) : World :=
  {| heap := heap w; shortids := shortids w; peers := l; pool := pool w; calls := calls w |}.

Definition set_pool (p : State) (w : World) : World :=
  {| heap := heap w; shortids := shortids w; peers := peers w; pool := p; calls := calls w |}.

Definition log (c : Call) : M World unit :=
  modify (fun w =>
    {| heap := heap w; shortids := shortids w; peers := peers w; pool := pool w;
       calls := calls w ++ [c] |}).

(** [new Connection(client)]: a fresh object in the store. *)
Definition new_Connection (client : string) : M World ref :=
  fun w =>
    let r := fresh (dom (heap w)) in
    let id := hd "" (shortids w) in
    (Ret r, set_shortids (tl (shortids w)) (set_heap (<[r := Connection.constructor client id]> (heap w)) w)).

(** A method call [client.m(...)] on the object behind a reference. *)
Definition on {A} (r : ref) (m : M Connection A) : M World A :=
  fun w =>
    match heap w !! r with
    | Some this => let '(o, this') := m this in (o, set_heap (<[r := this']> (heap w)) w)
    | None => (Throw (RError (TypeError "undefined is not an object")), w)
    end.

(** The peer of the next socket; a silent one when the script has run
    out. *)
Definition next_peer : M World Peer :=
  fun w =>
    (Ret (hd {| handshake := NoHandshake; events := [] |} (peers w)), set_peers (tl (peers w)) w).

(** The factory object handed to [createPool]. *)
Record Factory := {
  create : M World (promise ref);
  destroy : ref -> M World (promise ref) }.

Definition count (p : State) : nat := length (available p) + size (loans p).

Definition lend (r : ref) (p : State) : State :=
  {| available := filter (fun x => x ≠ r) (available p);
     loans := {[r]} ∪ loans p;
     draining := draining p |}.

Definition give_back (r : ref) (p : State) : State :=
  {| available := available p ++ [r];
     loans := loans p ∖ {[r]};
     draining := draining p |}.

Definition add_idle (r : ref) (p : State) : State :=
  {| available := available p ++ [r]; loans := loans p; draining := draining p |}.

Definition remove_idle (r : ref) (p : State) : State :=
  {| available := filter (fun x => x ≠ r) (available p);
     loans := loans p;
     draining := draining p |}.

Definition closed (p : State) : State :=
  {| available := available p; loans := loans p; draining := true |}.

Definition emptied (p : State) : State :=
  {| available := []; loans := loans p; draining := draining p |}.

Section WithFactory.
Variable cfg : Config.
Variable factory : Factory.

(** Modelled from the spec: the pool is the generic-pool package,
    which is not under src/. [acquire] follows section 4.3: an idle
    Session if one exists; otherwise, while idle plus in-use is below
    the maximum, a new Session from the factory, whose failure is
    passed to the acquirer and does not count toward the size;
    otherwise the caller waits and fails with AcquireTimeout (in a
    sequential run nobody releases while the caller waits). After
    drainAndClear the pool accepts no acquire (PoolClosed). *)
Definition acquire : M World (promise ref) :=
  new_Promise (
    w <- outer get ;;
    if draining (pool w) then call_reject (RError (PoolError "PoolClosed"))
    else
      match available (pool w) with
      | r :: _ =>
          outer (modify (fun w => set_pool (lend r (pool w)) w)) ;;;
          call_resolve r
      | [] =>
          if (Z.of_nat (count (pool w)) <? max cfg)%Z then
            p <- outer (create factory) ;;
            match p with
            | Resolved r =>
                outer (modify (fun w => set_pool (lend r (pool w)) w)) ;;;
                call_resolve r
            | Rejected err => call_reject err
            | Pending => call_reject (RError (PoolError "AcquireTimeout"))
            end
          else call_reject (RError (PoolError "AcquireTimeout"))
      end).

(** Modelled from the spec: [release] of the generic-pool package,
    which is not under src/. Section 4.3: it returns a Session to the
    idle set, making it available to the next acquirer. The pool
    sees a Session only as the object the factory created: the
    factory of the source has no validation callback and a
    [Connection] carries no state flag, so the pool treats every
    released Session alike. A Session that is not checked out is
    refused. *)
Definition release (r : ref) : M World (promise unit) :=
  new_Promise (
    w <- outer get ;;
    if decide (r ∈ loans (pool w)) then
      outer (modify (fun w => set_pool (give_back r (pool w)) w)) ;;;
      call_resolve tt
    else call_reject (RError (PoolError "Resource not currently part of this pool"))).

(** Modelled from the spec: the background eviction of the
    generic-pool package, section 4.3: an idle Session is destroyed
    and removed unless that drops idle plus in-use below the
    minimum. Which idle Session has been idle for longer than the
    soft-idle timeout is decided by the clock; [r] is the Session the
    sweep picks. *)
Definition evict (r : ref) : M World unit :=
  w <- get ;;
  if decide (r ∈ available (pool w)) then
    if (min cfg <=? Z.of_nat (count (pool w)) - 1)%Z then
      modify (fun w => set_pool (remove_idle r (pool w)) w) ;;;
      _ <- destroy factory r ;;
      ret tt
    else ret tt
  else ret tt.

(** Modelled from the spec: the background top-up of the
    generic-pool package, section 3: the pool is kept at its minimum,
    within the hard cap of the maximum. One step creates one
    Session. *)
Definition ensureMinimum : M World unit :=
  w <- get ;;
  if draining (pool w) then ret tt
  else if (Z.of_nat (count (pool w)) <? Z.min (min cfg) (max cfg))%Z then
    p <- create factory ;;
    match p with
    | Resolved r => modify (fun w => set_pool (add_idle r (pool w)) w)
    | _ => ret tt
    end
  else ret tt.

(** Modelled from the spec: [drain] of the generic-pool package,
    first half of drainAndClear in section 4.3: no acquire is
    accepted any more, and the promise resolves once no Session is
    checked out. *)
Definition drain : M World (promise unit) :=
  new_Promise (
    outer (modify (fun w => set_pool (closed (pool w)) w)) ;;;
    w <- outer get ;;
    if decide (loans (pool w) = ∅) then call_resolve tt else ret tt).

Fixpoint destroy_all (rs : list ref) : M World unit :=
  match rs with
  | [] => ret tt
  | r :: rest => _ <- destroy factory r ;; destroy_all rest
  end.

(** Modelled from the spec: [clear] of the generic-pool package,
    second half of drainAndClear in section 4.3: every idle Session
    is destroyed and the pool is left empty. *)
Definition clear : M World unit :=
  w <- get ;;
  modify (fun w => set_pool (emptied (pool w)) w) ;;;
  destroy_all (available (pool w)).

End WithFactory.

End Pool.

(** ** The RateLimiter of the limiter package *)

Module Limiter.

(** Modelled from the spec: the limiter is the RateLimiter of the
    limiter package, which is not under src/. Section 3: its state is
    the current token count and the queue of pending requests, in
    arrival order. Time is a logical clock of milliseconds, [now]. The
    token count is kept in units of 1/interval of a token, so that the
    linear refill of section 4.2 is exact: one token is [interval]
    units, a full bucket is [capacity * interval] units, and one
    millisecond refills [capacity] units. [grants] is the record of the
    requests admitted so far, each with the time of its admission. *)
Record State (A : Type) := {
  level : Z;
  now : Z;
  queue : list A;
  grants : list (A * Z) }.
Arguments level {A} _.
Arguments now {A} _.
Arguments queue {A} _.
Arguments grants {A} _.

(** What happens to a limiter: a millisecond passes, or a caller asks
    for a token. *)
Inductive Event (A : Type) :=
  | Tick
  | Call (r : A).
Arguments Tick {A}.
Arguments Call {A} r.

Section WithBucket.
Context {A : Type}.
Variables (capacity interval : Z).

(** Modelled from the spec: section 4.2, the bucket holds at most
    [capacity] tokens. *)
Definition full : Z := (capacity * interval)%Z.


(** Modelled from the spec: section 4.2, a suspended caller is resumed
    once a token is available, and that consumes exactly one token;
    the callers are taken from the front of the queue, and nobody is
    resumed past a caller that still waits. *)
Fixpoint grant_pending (pending : list A) (level now : Z) (granted : list (A * Z))
  : State A :=
  match pending with
  | r :: rest =>
      if (interval <=? level)%Z
      then grant_pending rest (level - interval)%Z now (granted ++ [(r, now)])
      else {| level := level; now := now; queue := pending; grants := granted |}
  | [] => {| level := level; now := now; queue := []; grants := granted |}
  end.

Definition dispatch (s : State A) : State A :=
  grant_pending (queue s) (level s) (now s) (grants s).

(** Modelled from the spec: [acquireToken()] of section 4.2, which the
    source calls as [limiter.removeTokens(1, callback)]: the caller
    joins the back of the queue and is resumed when its turn comes and
    a token is there. *)
Definition acquireToken (r : A) (s : State A) : State A :=
  dispatch {| level := level s; now := now s; queue := queue s ++ [r];
              grants := grants s |}.

(** Modelled from the spec: section 4.2, tokens replenish
    continuously and linearly, [capacity] tokens per [interval], up to
    a full bucket; the callers that the refill can serve are
    resumed. *)
Definition tick (s : State A) : State A :=
  dispatch {| level := Z.min full (level s + capacity); now := (now s + 1)%Z;
              queue := queue s; grants := grants s |}.

Definition step (s : State A) (ev : Event A) : State A :=
  match ev with
  | Tick => tick s
  | Call r => acquireToken r s
  end.

Definition run (evs : list (Event A)) (s : State A) : State A := fold_left step evs s.

End WithBucket.



End Limiter.

(** ** The pool class [Vndb] *)

Module Vndb.
Import Connection Pool.

(** [rateInterval]: a number of milliseconds, or the name of a unit. *)
Inductive Interval :=
  | Millis (n : Z)
  | Named (unit : string).

(** A credential: [null] or a string. *)
Inductive Credential :=
  | Null
  | Str (s : string).

Definition credential_value (c : Credential) : jsval :=
  match c with Null => JNull | Str s => JString s end.

(** A settings object. [F] is [option] for the object the caller
    passes, where a field may be missing, and the identity for an
    object that has every field. *)
Record SettingsOf (F : Type -> Type) := {
  s_rateLimit : F Z;
  s_rateInterval : F Interval;
  s_password : F Credential;
  s_poolMin : F Z;
  s_poolTimeout : F Z;
  s_username : F Credential }.
Arguments s_rateLimit {F} _.
Arguments s_rateInterval {F} _.
Arguments s_password {F} _.
Arguments s_poolMin {F} _.
Arguments s_poolTimeout {F} _.
Arguments s_username {F} _.

Definition Settings : Type := SettingsOf option.
Definition FullSettings : Type := SettingsOf (fun A => A).

Definition defaultSettings : FullSettings :=
  {| s_rateLimit := 20%Z;
     s_rateInterval := Millis 60000;
     s_password := Null;
     s_poolMin := 1%Z;
     s_poolTimeout := 30000%Z;
     s_username := Null |}.

(** The settings object [{}]. *)
Definition no_settings : Settings :=
  {| s_rateLimit := None; s_rateInterval := None; s_password := None;
     s_poolMin := None; s_poolTimeout := None; s_username := None |}.

(** Modelled from the spec: [defaults] of the defaults-shallow package,
    which is not under src/: every field the target lacks is copied
    from the defaults object, and a field the target has is left as it
    is. *)
Definition defaults (target : Settings) (defs : FullSettings) : FullSettings :=
  {| s_rateLimit := default (s_rateLimit defs) (s_rateLimit target);
     s_rateInterval := default (s_rateInterval defs) (s_rateInterval target);
     s_password := default (s_password defs) (s_password target);
     s_poolMin := default (s_poolMin defs) (s_poolMin target);
     s_poolTimeout := default (s_poolTimeout defs) (s_poolTimeout target);
     s_username := default (s_username defs) (s_username target) |}.

(** [new RateLimiter(tokensPerInterval, interval)] *)
Record RateLimiter := {
  tokensPerInterval : Z;
  interval : Interval }.


Record Vndb := {
  clientName : string;
  rateLimit : Z;
  rateInterval : Interval;
  password : Credential;
  username : Credential;
  poolConfig : Config;
  limiter : RateLimiter }.

(** [constructor(clientName, settings = {})]; [None] is a call without
    the second argument. The pool itself is part of the [World]. *)
Definition constructor (clientName : string) (settings : option Settings) : Vndb :=
  let settings := defaults (default no_settings settings) defaultSettings in
  {| clientName := clientName;
     rateLimit := s_rateLimit settings;
     rateInterval := s_rateInterval settings;
     password := s_password settings;
     username := s_username settings;
     poolConfig :=
       {| min := s_poolMin settings;
          max := 10;
          evictionRunIntervalMillis := 1000;
          numTestsPerRun := 10;
          softIdleTimeoutMillis := s_poolTimeout settings;
          idleTimeoutMillis := 0;
          acquireTimeoutMillis := 2000 |};
     limiter :=
       {| tokensPerInterval := s_rateLimit settings;
          interval := s_rateInterval settings |} |}.

(** An async function called as a callback: what it throws rejects its
    own promise, which nobody holds. *)
Definition async_callback {S} (body : M S unit) : M S unit :=
  fun s => let '(_, s') := body s in (Ret tt, s').

(** [client.socketID] for a [client] that may be [undefined]. *)
Definition socketID_of {S} (client : option ref) : M S ref :=
  match client with
  | Some c => ret c
  | None => throw (RError (TypeError "Cannot read property 'socketID' of undefined"))
  end.

Section WithPackage.
(** The [version] of package.json. *)
Variable version : string.

(** The factory object of the constructor. *)
Definition factory (this : Vndb) : Factory :=
  {| create :=
       new_Promise_async (
         try_catch (
           client <- outer (new_Connection (clientName this)) ;;
           peer <- outer next_peer ;;
           p <- outer (on client (connect peer)) ;;
           _ <- await p ;;
           p <- outer (on client (login version (credential_value (username this))
                                                (credential_value (password this)))) ;;
           _ <- await p ;;
           call_resolve client)
         (fun err => call_reject err));
     Pool.destroy := fun client =>
       new_Promise_async (
         p <- outer (on client Connection.destroy) ;;
         _ <- await p ;;
         call_resolve client) |}.

(** The world in which the pool has not started a Session yet: an
    empty pool, and nothing taken from the environment. [createPool]
    tops the pool up to [poolMin] Sessions from here; that top-up is
    the step [OpEnsureMinimum] below, one Session at a time. *)
Definition init (ids : list string) (net : list Peer) : World :=
  {| heap := ∅; shortids := ids; peers := net;
     pool := {| available := []; loans := ∅; draining := false |};
     calls := [] |}.

(** [send(message)], lines 94 to 99: [client] stays [undefined]
    ([None]) when the acquisition fails. *)
Definition acquire_client (this : Vndb) : M (World * promise string) (option ref) :=
  try_catch (
    outer (log Acquire) ;;;
    p <- outer (acquire (poolConfig this) (factory this)) ;;
    c <- await p ;;
    ret (Some c))
  (fun err => call_reject err ;;; ret None).

(** [send(message)], lines 100 to 112: the exchange on the
    client. *)
Definition exchange (message : string) (client : option ref)
  : M (World * promise string) unit :=
  try_finally (
    try_catch (
      c <- socketID_of client ;;
      outer (on c (write message)) ;;;
      p <- outer (on c read) ;;
      response <- await p ;;
      call_resolve response)
    (fun err => call_reject err))
  (c <- socketID_of client ;;
   outer (log (Release c)) ;;;
   _ <- outer (release c) ;;
   ret tt).

(** [send(message)]. The limiter decides when the callback of
    [removeTokens] runs; the run below is the one of the callback. *)
Definition send (this : Vndb) (message : string) : M World (promise string) :=
  new_Promise (
    outer (log (RemoveTokens 1)) ;;;
    async_callback (
      client <- acquire_client this ;;
      exchange message client)).

(** [destroy()] *)
Definition destroy (this : Vndb) : M World (promise string) :=
  new_Promise_async (
    outer (log Drain) ;;;
    p <- outer drain ;;
    _ <- await p ;;
    outer (log Clear) ;;;
    outer (clear (factory this)) ;;;
    call_resolve "ok").

(** What happens to the pool of a [Vndb]: the two public methods,
    the calls that [send] makes on the pool, taken one at a time as
    they interleave when several [send]s are in flight, and the
    background work of the pool. *)
Inductive Op :=
  | OpSend (message : string)
  | OpDestroy
  | OpAcquire
  | OpRelease (r : ref)
  | OpEvict (r : ref)
  | OpEnsureMinimum
  | OpDrain
  | OpClear.

Definition step (this : Vndb) (op : Op) : M World unit :=
  match op with
  | OpSend message => _ <- send this message ;; ret tt
  | OpDestroy => _ <- destroy this ;; ret tt
  | OpAcquire => _ <- acquire (poolConfig this) (factory this) ;; ret tt
  | OpRelease r => _ <- release r ;; ret tt
  | OpEvict r => evict (poolConfig this) (factory this) r
  | OpEnsureMinimum => ensureMinimum (poolConfig this) (factory this)
  | OpDrain => _ <- drain ;; ret tt
  | OpClear => clear (factory this)
  end.

Definition run (this : Vndb) (ops : list Op) (w : World) : World :=
  fold_left (fun w op => snd (step this op w)) ops w.

(** The Session that the acquisition of [send] obtains in [w], and
    the world at that point. *)
Definition acquired (this : Vndb) (w : World) : option (ref * World) :=
  match (log (RemoveTokens 1) ;;; log Acquire ;;;
         acquire (poolConfig this) (factory this)) w with
  | (Ret (Resolved c), w1) => Some (c, w1)
  | _ => None
  end.

End WithPackage.

End Vndb.
Import Connection Pool Vndb.

(** ** The vocabulary of the properties *)

(** What [login] hands to [socket.write]. *)
Definition login_command (version : string) (this : Connection) (username password : jsval)
  : string :=
  "login " +:+ JSON_stringify (login_data version this username password) replacer
  +:+ eot this.

(** The data [read] has accumulated after the chunks [chunks], starting
    from [chunk]: [chunk += data] for each of them. *)
Definition accumulate (chunk : string) (chunks : list string) : string :=
  fold_left String.append chunks chunk.

(** A string whose last byte is the terminator 0x04. *)
Definition ends_with_terminator (s : string) : Prop :=
  ∃ body, s = body +:+ String "004" EmptyString.

(** [R] relates the state before a piece of code to the state after
    it. *)
Definition stable {S A} (R : S → S → Prop) (c : M S A) : Prop :=
  ∀ s, R s (snd (c s)).

(** [R] on the state of an executor, which carries its promise. *)
Definition on_fst {S B} (R : S → S → Prop) (sp sp' : S * promise B) : Prop :=
  R (fst sp) (fst sp').

(** The pool is untouched and no object leaves the store. *)
Definition pool_frame (w w' : World) : Prop :=
  pool w' = pool w ∧ dom (heap w) ⊆ dom (heap w').

(** The invariant of the pool: the idle queue has no Session twice, no
    Session is both idle and checked out, the Sessions held are at most
    [limit], and all of them are objects of the store [D]. *)
Definition state_inv (limit : Z) (D : gset nat) (p : State) : Prop :=
  NoDup (available p)
  ∧ (∀ r, r ∈ available p → r ∉ loans p)
  ∧ (Z.of_nat (count p) ≤ limit)%Z
  ∧ (∀ r, r ∈ available p ∨ r ∈ loans p → r ∈ D).

Definition pool_inv (limit : Z) (w : World) : Prop :=
  state_inv limit (dom (heap w)) (pool w).

Definition keeps (I : World → Prop) (w w' : World) : Prop := I w → I w'.

(** [socket.end()] has been called on the one exactly when it has been
    called on the other. *)
Definition same_end (conn conn' : Connection) : Prop :=
  end_requested <$> socket conn' = end_requested <$> socket conn.

(** A [Vndb] with the default settings, version 1.0.0 of the package,
    and two servers: one that accepts the login and answers the first
    command, one that accepts the login and then resets the
    connection. *)
Definition demo : Vndb := Vndb.constructor "demo" None.

Definition answering : Peer :=
  {| handshake := SecureConnect true;
     events := [Data ("ok" +:+ String "004" EmptyString);
                Data "results {}"; Data (String "004" EmptyString)] |}.

Definition resetting : Peer :=
  {| handshake := SecureConnect true;
     events := [Data ("ok" +:+ String "004" EmptyString);
                Error (SocketError "ECONNRESET")] |}.

Definition after_acquire (w : World) : World :=
  match acquired "1.0.0" demo w with
  | Some (_, w1) => w1
  | None => w
  end.

(** A string in which the terminator 0x04 does not occur. *)
Definition no_terminator (s : string) : Prop :=
  ∀ a b, s ≠ a +:+ String "004" b.

(** Every byte of the string is at least 0x20: no control character. *)
Fixpoint printable (s : string) : bool :=
  match s with
  | EmptyString => true
  | String c rest => Nat.leb 32 (nat_of_ascii c) && printable rest
  end.

(** The pool and the trace of calls are untouched. *)
Definition quiet (w w' : World) : Prop :=
  pool w' = pool w ∧ calls w' = calls w.

(** The object behind [r] has a socket; [socket.end()] has been called
    on the socket of the object behind [r]. *)
Definition has_socket (r : nat) (w : World) : Prop :=
  ∃ conn sock, heap w !! r = Some conn ∧ socket conn = Some sock.

Definition ended (r : nat) (w : World) : Prop :=
  ∃ conn sock, heap w !! r = Some conn ∧ socket conn = Some sock
               ∧ end_requested sock = true.

(** What [write(message)] followed by [read()] on a [Connection] yields
    to the caller that awaits the read inside [try]/[catch]: the promise
    of the read, or a rejection with what [write] threw. *)
Definition write_then_read (message : string) (conn : Connection) : promise string :=
  match write message conn with
  | (Ret _, conn1) =>
      match read conn1 with
      | (Ret p, _) => p
      | (Throw r, _) => Rejected r
      | (Hang, _) => Pending
      end
  | (Throw r, _) => Rejected r
  | (Hang, _) => Pending
  end.

(** The outcome of the write-then-read exchange on the object behind
    [c] in the store of [w]. *)
Definition exchange_outcome (message : string) (c : nat) (w : World) : promise string :=
  match heap w !! c with
  | Some conn => write_then_read message conn
  | None => Rejected (RError (TypeError "undefined is not an object"))
  end.

(** Between [w] and [w'] the only calls made are calls of
    [pool.release]. *)
Definition releases_only (w w' : World) : Prop :=
  ∃ l, calls w' = calls w ++ l ∧ Forall (fun c => ∃ r, c = Release r) l.






(** Modelled from the spec: the world once the pool that the
    constructor creates has started its Sessions. [createPool] belongs
    to the generic-pool package, which is not under src/; by section 3
    the pool is kept at its minimum, so it tops itself up to [poolMin]
    Sessions, one step of the top-up for each. *)
Definition constructed (version : string) (this : Vndb) (ids : list string)
    (net : list Peer) : World :=
  run version this (replicate (Z.to_nat (min (poolConfig this))) OpEnsureMinimum)
    (init ids net).



(** * Properties *)

(** ** The constructor of [Vndb] *)

(** C10. Constructing a [Vndb] fills every field the settings object
    lacks with its default (rateLimit 20, rateInterval 60000 ms,
    username and password null, poolMin 1, poolTimeout 30000 ms) and
    keeps every field the caller supplied; without a settings object
    every field has its default. *)
Theorem constructor_defaults (clientName : string) (settings : Settings) :
  let this := Vndb.constructor clientName (Some settings) in
  rateLimit this = default 20%Z (s_rateLimit settings)
  ∧ rateInterval this = default (Millis 60000) (s_rateInterval settings)
  ∧ username this = default Null (s_username settings)
  ∧ password this = default Null (s_password settings)
  ∧ min (poolConfig this) = default 1%Z (s_poolMin settings)
  ∧ softIdleTimeoutMillis (poolConfig this) = default 30000%Z (s_poolTimeout settings)
  ∧ limiter this = {| tokensPerInterval := default 20%Z (s_rateLimit settings);
                      interval := default (Millis 60000) (s_rateInterval settings) |}
  ∧ Vndb.constructor clientName None = Vndb.constructor clientName (Some no_settings)
  ∧ Vndb.constructor clientName None
    = {| clientName := clientName; rateLimit := 20; rateInterval := Millis 60000;
         password := Null; username := Null;
         poolConfig := {| min := 1; max := 10; evictionRunIntervalMillis := 1000;
                          numTestsPerRun := 10; softIdleTimeoutMillis := 30000;
                          idleTimeoutMillis := 0; acquireTimeoutMillis := 2000 |};
         limiter := {| tokensPerInterval := 20; interval := Millis 60000 |} |}.
Proof.
  destruct settings as [rl ri pw pm pt un]; cbn.
  repeat split; reflexivity.
Qed.

(** ** [Connection.connect] *)

(** C3. [connect()] resolves only when the handshake completes with an
    authorized certificate; a completed handshake with an unauthorized
    certificate rejects with the UNAUTHORIZED_CONNECTION string, and an
    error during the handshake rejects with that error. *)
Theorem connect_outcome (peer : Peer) (this : Connection) :
  fst (connect peer this)
  = Ret (match handshake peer with
         | SecureConnect true => Resolved "ok"
         | SecureConnect false => Rejected (RString "Secure connection could not be established")
         | HandshakeError cause => Rejected (RError cause)
         | NoHandshake => Pending
         end)
  ∧ (fst (connect peer this) = Ret (Resolved "ok") ↔ handshake peer = SecureConnect true).
Proof.
  unfold connect, new_Promise, bind, outer, zoom, modify.
  destruct peer as [[[|]|e|] evs]; cbn; (split; [reflexivity|]);
    split; intros H; try reflexivity; try discriminate H.
Qed.

(** ** [Connection.destroy] *)

Lemma await_end_true (evs : list SockEvent) :
  fst (await_end evs) = true ↔ ∃ ds rest, evs = (Data <$> ds) ++ Ended :: rest.
Proof.
  induction evs as [|[d|e|] evs IH]; cbn.
  - split; [discriminate|]. intros (ds & rest & H). destruct ds; discriminate H.
  - rewrite IH. split.
    + intros (ds & rest & ->). exists (d :: ds), rest. reflexivity.
    + intros (ds & rest & H). destruct ds as [|d' ds]; [discriminate H|].
      injection H as -> H. eauto.
  - split; [discriminate|]. intros (ds & rest & H). destruct ds; discriminate H.
  - split; [|reflexivity]. intros _. exists [], evs. reflexivity.
Qed.

(** C7. [destroy()] rejects with NO_CONNECTION when the socket is
    undefined; otherwise it calls [socket.end()] and its promise is
    resolved exactly when the socket emits 'end', and is pending until
    then. *)
Theorem destroy_outcome (this : Connection) :
  match socket this with
  | None => Connection.destroy this = (Ret (Rejected (RString "No connection to destroy")), this)
  | Some sock =>
      ∃ p this',
        Connection.destroy this = (Ret p, this')
        ∧ end_requested <$> socket this' = Some true
        ∧ p = (if fst (await_end (incoming sock)) then Resolved "ok" else Pending)
        ∧ (p = Resolved "ok" ↔ ∃ ds rest, incoming sock = (Data <$> ds) ++ Ended :: rest)
  end.
Proof.
  destruct this as [e u po [sock|] enc id]; cbn; [|reflexivity].
  unfold Connection.destroy, new_Promise, bind, outer, zoom, modify, get, this_socket, update_socket; cbn.
  destruct (await_end (incoming sock)) as [ended rest] eqn:E; cbn.
  pose proof (await_end_true (incoming sock)) as Hend. rewrite E in Hend; cbn in Hend.
  destruct ended; cbn; eexists _, _; (split; [reflexivity|]); cbn;
    (split; [reflexivity|]); (split; [reflexivity|]).
  - split; [intros _; apply Hend; reflexivity | reflexivity].
  - split; [discriminate|]. intros H. apply Hend in H. discriminate H.
Qed.

(** ** [Connection.login] *)

Lemma string_of_int_not_null (d : Decimal.signed_int) :
  NilZero.string_of_int d ≠ "null".
Proof. destruct d as [[]|[]]; cbn; discriminate. Qed.

Lemma SerializeJSONProperty_replacer (key : string) (value : jsval) :
  SerializeJSONProperty replacer key value
  = match value with
    | JUndefined | JNull => None
    | JNumber n => Some (NilZero.string_of_int (Z.to_int n))
    | JString s => Some (QuoteJSONString s)
    end.
Proof. destruct value; reflexivity. Qed.


Lemma login_writes (version : string) (username password : jsval)
    (this : Connection) (sock : TLSSocket) :
  written <$> socket (snd (login version username password (set_socket (Some sock) this)))
  = Some (written sock ++ [login_command version this username password]).
Proof.
  unfold login, login_command, new_Promise_async, bind, outer, zoom, get, try_catch,
    write, read, new_Promise, this_socket, update_socket, modify, await,
    call_resolve, call_reject; cbn.
  destruct (read_events (eot this) "" (incoming sock)) as [[|response|r] rest]; cbn;
    try reflexivity.
  destruct (String.eqb response ("ok" +:+ eot this)); reflexivity.
Qed.

(** C5. The login command is ["login "] followed by the JSON text of the
    login data and the terminator. The JSON object always has the
    members protocol, client and clientver; it has the member username
    (password) exactly when the username (password) is neither [null] nor
    [undefined]; no member is written as [null]. *)
Theorem login_payload (version : string) (username password : jsval)
    (this : Connection) (sock : TLSSocket) :
  let sent := members replacer (login_data version this username password) in
  let keys := fst <$> sent in
  written <$> socket (snd (login version username password (set_socket (Some sock) this)))
  = Some (written sock
          ++ ["login " +:+ ("{" +:+ String.concat "," (member_text <$> sent) +:+ "}")
              +:+ eot this])
  ∧ ("protocol", "1") ∈ sent
  ∧ ("client", QuoteJSONString (socketID this)) ∈ sent
  ∧ ("clientver", QuoteJSONString version) ∈ sent
  ∧ ("username" ∈ keys ↔ username ≠ JNull ∧ username ≠ JUndefined)
  ∧ ("password" ∈ keys ↔ password ≠ JNull ∧ password ≠ JUndefined)
  ∧ (∀ m, m ∈ sent → snd m ≠ "null").
Proof.
  split; [apply login_writes|].
  unfold login_data; cbn [members].
  rewrite !SerializeJSONProperty_replacer.
  destruct username as [| |nu|su], password as [| |np|sp]; cbn;
    split_and!;
    try (rewrite !elem_of_cons; tauto);
    try (split;
         [ intros H; rewrite ?elem_of_cons, ?elem_of_nil in H;
           first [ split; discriminate | exfalso; intuition discriminate ]
         | intros [H1 H2]; first [ congruence | rewrite !elem_of_cons; tauto ] ]);
    intros m Hm; rewrite ?elem_of_cons, ?elem_of_nil in Hm;
    intuition subst; unfold QuoteJSONString; cbn;
    first [ discriminate | apply string_of_int_not_null
          | match goal with
            | H : _ = "null" |- False => exact (string_of_int_not_null _ H)
            end ].
Qed.

(** C4. When the response frame that [read] delivers is [response],
    [login] resolves (with [response]) exactly when [response] is ["ok"]
    followed by the terminator; for every other frame it rejects with
    [response] itself. *)
Theorem login_outcome (version client shortid : string) (username password : jsval)
    (sock : TLSSocket) (response : string) (rest : list SockEvent) :
  let this := set_socket (Some sock) (Connection.constructor client shortid) in
  read_events (eot this) "" (incoming sock) = (Resolved response, rest) →
  fst (login version username password this)
  = Ret (if String.eqb response ("ok" +:+ String "004" EmptyString)
         then Resolved response else Rejected (RString response))
  ∧ (fst (login version username password this) = Ret (Resolved response)
     ↔ response = "ok" +:+ String "004" EmptyString)
  ∧ (fst (login version username password this) = Ret (Rejected (RString response))
     ↔ response ≠ "ok" +:+ String "004" EmptyString).
Proof.
  intros this Hread.
  assert (fst (login version username password this)
          = Ret (if String.eqb response ("ok" +:+ String "004" EmptyString)
                 then Resolved response else Rejected (RString response))) as ->.
  { unfold login, new_Promise_async, bind, outer, zoom, get, try_catch,
      write, read, new_Promise, this_socket, update_socket, modify, await,
      call_resolve, call_reject; cbn.
    cbn in Hread. rewrite Hread; cbn.
    destruct (String.eqb response _); reflexivity. }
  split; [reflexivity|].
  destruct (String.eqb_spec response ("ok" +:+ String "004" EmptyString)) as [Heq|Hne].
  - split; split; intros H; try reflexivity; try assumption; try discriminate H.
    contradiction.
  - split; split; intros H; try discriminate H; try assumption; try reflexivity.
    contradiction.
Qed.

Lemma login_outcome_witness :
  let sock := tls_connect {| handshake := SecureConnect true;
                             events := [Data "error auth"; Data (String "004" EmptyString)] |} in
  fst (login "1.0.0" (JString "u") (JString "p")
         (set_socket (Some sock) (Connection.constructor "demo" "id")))
  = Ret (Rejected (RString ("error auth" +:+ String "004" EmptyString))).
Proof.
  intros sock.
  pose proof (login_outcome "1.0.0" "demo" "id" (JString "u") (JString "p") sock
                ("error auth" +:+ String "004" EmptyString) [] eq_refl) as [H _].
  exact H.
Defined.

(** ** Framing: [Connection.write] and [Connection.read] *)

Section Framing.

Lemma append_cons (c : ascii) (s t : string) :
  String c s +:+ t = String c (s +:+ t).
Proof. reflexivity. Qed.

Lemma append_empty (t : string) : "" +:+ t = t.
Proof. reflexivity. Qed.

Lemma length_append (s t : string) :
  String.length (s +:+ t) = String.length s + String.length t.
Proof.
  induction s as [|c s IH]; rewrite ?append_cons, ?append_empty; cbn;
    [reflexivity | now rewrite IH].
Qed.

Lemma substring_all (s : string) : substring 0 (String.length s) s = s.
Proof. induction s as [|c s IH]; cbn; [reflexivity | now rewrite IH]. Qed.

Lemma substring_suffix (s t : string) :
  substring (String.length s) (String.length t) (s +:+ t) = t.
Proof.
  induction s as [|c s IH]; rewrite ?append_cons, ?append_empty; cbn;
    [apply substring_all | exact IH].
Qed.

Lemma substring_split (s : string) (k : nat) :
  k ≤ String.length s →
  substring 0 k s +:+ substring k (String.length s - k) s = s.
Proof.
  revert k. induction s as [|c s IH]; intros k Hk; cbn in Hk.
  - replace k with 0 by lia. reflexivity.
  - destruct k as [|k]; cbn.
    + rewrite append_empty. now rewrite substring_all.
    + rewrite append_cons, IH by lia. reflexivity.
Qed.

(** [endsWith] holds exactly of the strings that have the searched
    string as a suffix. *)
Lemma endsWith_spec (s search : string) :
  endsWith s search = true ↔ ∃ body, s = body +:+ search.
Proof.
  unfold endsWith. split.
  - destruct (Nat.ltb_spec (String.length s) (String.length search)) as [Hlt|Hge];
      [discriminate|].
    intros Heq%String.eqb_eq.
    exists (substring 0 (String.length s - String.length search) s).
    pose proof (substring_split s (String.length s - String.length search)) as Hs.
    replace (String.length s - (String.length s - String.length search))
      with (String.length search) in Hs by lia.
    rewrite Heq in Hs. symmetry. apply Hs. lia.
  - intros [body ->]. rewrite length_append.
    destruct (Nat.ltb_spec (String.length body + String.length search)
                (String.length search)) as [Hlt|Hge]; [lia|].
    replace (String.length body + String.length search - String.length search)
      with (String.length body) by lia.
    rewrite substring_suffix. apply String.eqb_refl.
Qed.

Lemma endsWith_false (s search : string) :
  endsWith s search = false ↔ ¬ ∃ body, s = body +:+ search.
Proof.
  rewrite <- endsWith_spec. destruct (endsWith s search); split; intros H;
    try discriminate; try reflexivity; try (intros H'; discriminate H').
  now contradiction H.
Qed.


Lemma read_events_data (eot : string) (chunks : list string) :
  ∀ chunk,
    match read_events eot chunk (Data <$> chunks) with
    | (Resolved frame, rest) =>
        ∃ k, k < length chunks
             ∧ frame = accumulate chunk (take (S k) chunks)
             ∧ endsWith frame eot = true
             ∧ rest = Data <$> drop (S k) chunks
             ∧ ∀ j, 0 < j ≤ k → endsWith (accumulate chunk (take j chunks)) eot = false
    | (Pending, rest) =>
        rest = []
        ∧ ∀ j, 0 < j ≤ length chunks →
               endsWith (accumulate chunk (take j chunks)) eot = false
    | (Rejected _, _) => False
    end.
Proof.
  induction chunks as [|d chunks IH]; intros chunk; cbn.
  - split; [reflexivity|]. intros j Hj. lia.
  - destruct (endsWith (chunk +:+ d) eot) eqn:Hends.
    + exists 0. cbn. rewrite take_0. cbn.
      split_and!; [lia | reflexivity | exact Hends | now rewrite drop_0 | intros j Hj; lia].
    + specialize (IH (chunk +:+ d)).
      destruct (read_events eot (chunk +:+ d) (Data <$> chunks)) as [[|frame|r] rest].
      * destruct IH as [-> IH]. split; [reflexivity|].
        intros [|[|j]] Hj; [lia | cbn; now rewrite take_0 |].
        apply (IH (S j)). lia.
      * destruct IH as (k & Hk & Hframe & Hfe & Hrest & Hbefore).
        exists (S k). split_and!; [lia | exact Hframe | exact Hfe | exact Hrest |].
        intros [|[|j]] Hj; [lia | cbn; now rewrite take_0 |].
        apply (Hbefore (S j)). lia.
      * exact IH.
Qed.

Lemma read_run (this : Connection) (sock : TLSSocket) :
  read (set_socket (Some sock) this)
  = (Ret (fst (read_events (eot this) "" (incoming sock))),
     set_socket (Some (set_incoming (snd (read_events (eot this) "" (incoming sock))) sock)) this).
Proof.
  unfold read, new_Promise, bind, outer, zoom, get, this_socket, update_socket, modify; cbn.
  destruct (read_events (eot this) "" (incoming sock)) as [[|frame|r] rest]; reflexivity.
Qed.

End Framing.


(** C6. [write(message)] hands [message] followed by the one byte 0x04
    to the socket. When the socket delivers the data chunks [chunks],
    [read()] resolves at the first chunk after which the accumulated
    data ends with the terminator, with all the data accumulated up to
    there, terminator included; it stays pending when no such chunk
    comes. *)
Theorem framing (client shortid message : string) (sock : TLSSocket) (chunks : list string) :
  let this := Connection.constructor client shortid in
  write message (set_socket (Some sock) this)
  = (Ret tt, set_socket (Some (socket_write (message +:+ String "004" EmptyString) sock)) this)
  ∧ match fst (read (set_socket (Some (set_incoming (Data <$> chunks) sock)) this)) with
    | Ret (Resolved frame) =>
        ∃ k, k < length chunks
             ∧ frame = accumulate "" (take (S k) chunks)
             ∧ ends_with_terminator frame
             ∧ ∀ j, j ≤ k → ¬ ends_with_terminator (accumulate "" (take j chunks))
    | Ret Pending =>
        ∀ j, ¬ ends_with_terminator (accumulate "" (take j chunks))
    | _ => False
    end.
Proof.
  intros this. split; [reflexivity|].
  rewrite read_run. cbn [fst incoming set_incoming].
  pose proof (read_events_data (eot this) chunks "") as H.
  destruct (read_events (eot this) "" (Data <$> chunks)) as [[|frame|r] rest]; cbn [fst].
  - destruct H as [_ H]. intros j.
    assert (take j chunks = take (j `min` length chunks) chunks) as ->.
    { destruct (decide (j ≤ length chunks)) as [Hle|Hgt].
      - now rewrite Nat.min_l by lia.
      - rewrite Nat.min_r by lia. now rewrite !take_ge by lia. }
    destruct (decide (j `min` length chunks = 0)) as [->|Hj0].
    + rewrite take_0. intros [body Hb]. destruct body; discriminate Hb.
    + apply endsWith_false, H. lia.
  - destruct H as (k & Hk & Hframe & Hfe & _ & Hbefore).
    exists k. split_and!; [exact Hk | exact Hframe | now apply endsWith_spec |].
    intros j Hj. destruct (decide (j = 0)) as [->|Hj0].
    + rewrite take_0. intros [body Hb]. destruct body; discriminate Hb.
    + apply endsWith_false, Hbefore. lia.
  - exact H.
Qed.

(** ** Reasoning about sequential code

    A relation [R] between the state before and the state after holds of
    a piece of code when it holds of each of its parts. With [R] a frame
    condition, or [R s s'] the preservation of an invariant, this lifts
    facts about the calls on the pool to the methods that make them. *)

Section Stable.
Context {S : Type} (R : S → S → Prop) `{!PreOrder R}.

Lemma on_fst_preorder {B} : PreOrder (on_fst (B := B) R).
Proof.
  split.
  - intros sp. unfold on_fst. reflexivity.
  - intros a b c Hab Hbc. unfold on_fst in *. etransitivity; eassumption.
Qed.

Lemma stable_ret {A} (a : A) : stable R (ret a).
Proof. intros s. cbn. reflexivity. Qed.

Lemma stable_throw {A} (r : reason) : stable R (@throw S A r).
Proof. intros s. cbn. reflexivity. Qed.

Lemma stable_get : stable R (@get S).
Proof. intros s. cbn. reflexivity. Qed.

Lemma stable_await {A} (p : promise A) : stable R (@await S A p).
Proof. intros s. destruct p; cbn; reflexivity. Qed.

Lemma stable_modify (f : S → S) : (∀ s, R s (f s)) → stable R (modify f).
Proof. intros H s. cbn. apply H. Qed.

Lemma stable_bind {A B} (c : M S A) (k : A → M S B) :
  stable R c → (∀ a, stable R (k a)) → stable R (bind c k).
Proof.
  intros Hc Hk s. unfold bind. specialize (Hc s).
  destruct (c s) as [[a|r|] s']; cbn in *; [|assumption..].
  etransitivity; [exact Hc | apply Hk].
Qed.

Lemma stable_try_catch {A} (body : M S A) (handler : reason → M S A) :
  stable R body → (∀ r, stable R (handler r)) → stable R (try_catch body handler).
Proof.
  intros Hb Hh s. unfold try_catch. specialize (Hb s).
  destruct (body s) as [[a|r|] s']; cbn in *; [assumption | | assumption].
  etransitivity; [exact Hb | apply Hh].
Qed.

Lemma stable_try_finally {A} (body : M S A) (fin : M S unit) :
  stable R body → stable R fin → stable R (try_finally body fin).
Proof.
  intros Hb Hf s. unfold try_finally. specialize (Hb s).
  destruct (body s) as [[a|r|] s']; cbn in *; [| |assumption];
    specialize (Hf s'); destruct (fin s') as [[[]|r'|] s'']; cbn in *;
    etransitivity; eassumption.
Qed.

Lemma stable_async_callback (body : M S unit) :
  stable R body → stable R (Vndb.async_callback body).
Proof.
  intros Hb s. unfold async_callback. specialize (Hb s).
  destruct (body s) as [o s']; exact Hb.
Qed.

End Stable.

#[export] Existing Instance on_fst_preorder.

Section StableExecutor.
Context {S : Type} (R : S → S → Prop) `{!PreOrder R}.

Lemma stable_outer {A B} (c : M S A) :
  stable R c → stable (on_fst R (B := B)) (outer c).
Proof.
  intros Hc [s p]. unfold outer, zoom, on_fst. cbn. specialize (Hc s).
  destruct (c s) as [o s']; exact Hc.
Qed.

Lemma stable_call_resolve {B} (v : B) : stable (on_fst R) (call_resolve (S := S) v).
Proof. intros [s p]. unfold on_fst. cbn. reflexivity. Qed.

Lemma stable_call_reject {B} (r : reason) :
  stable (on_fst R) (call_reject (S := S) (A := B) r).
Proof. intros [s p]. unfold on_fst. cbn. reflexivity. Qed.

Lemma stable_new_Promise {B} (executor : M (S * promise B) unit) :
  stable (on_fst R) executor → stable R (new_Promise executor).
Proof.
  intros He s. unfold new_Promise. specialize (He (s, Pending)). unfold on_fst in He.
  destruct (executor (s, Pending)) as [[[]|r|] [s' p]]; exact He.
Qed.

Lemma stable_new_Promise_async {B} (executor : M (S * promise B) unit) :
  stable (on_fst R) executor → stable R (new_Promise_async executor).
Proof.
  intros He s. unfold new_Promise_async. specialize (He (s, Pending)). unfold on_fst in He.
  destruct (executor (s, Pending)) as [o [s' p]]; exact He.
Qed.

End StableExecutor.

Lemma new_Promise_ret {S B} (executor : M (S * promise B) unit) (s : S) :
  ∃ p s', new_Promise executor s = (Ret p, s').
Proof.
  unfold new_Promise. destruct (executor (s, Pending)) as [[[]|r|] [s' p]]; eauto.
Qed.

Lemma new_Promise_async_ret {S B} (executor : M (S * promise B) unit) (s : S) :
  ∃ p s', new_Promise_async executor s = (Ret p, s').
Proof.
  unfold new_Promise_async. destruct (executor (s, Pending)) as [o [s' p]]; eauto.
Qed.

Create HintDb stable discriminated.

(** One step through the structure of the code. *)
Ltac stable_step :=
  lazymatch goal with
  | |- PreOrder _ => typeclasses eauto
  | |- ∀ _, _ => intros ?
  | |- stable _ (bind _ _) => apply stable_bind
  | |- stable _ (try_catch _ _) => apply stable_try_catch
  | |- stable _ (try_finally _ _) => apply stable_try_finally
  | |- stable _ (async_callback _) => apply stable_async_callback
  | |- stable _ (outer _) => apply stable_outer
  | |- stable _ (new_Promise _) => apply stable_new_Promise
  | |- stable _ (new_Promise_async _) => apply stable_new_Promise_async
  | |- stable _ (await _) => apply stable_await
  | |- stable _ (ret _) => apply stable_ret
  | |- stable _ (throw _) => apply stable_throw
  | |- stable _ get => apply stable_get
  | |- stable _ (call_resolve _) => apply stable_call_resolve
  | |- stable _ (call_reject _) => apply stable_call_reject
  | |- stable _ (socketID_of ?c) => destruct c; unfold socketID_of
  | |- stable _ (match ?x with _ => _ end) => destruct x
  | |- _ => solve [eauto with stable]
  end.

Ltac stable_auto := repeat stable_step.

(** ** The pool *)


#[export] Instance pool_frame_preorder : PreOrder pool_frame.
Proof.
  split.
  - intros w. split; [reflexivity | set_solver].
  - intros a b c [H1 H2] [H3 H4]. split; [congruence | set_solver].
Qed.


#[export] Instance keeps_preorder (I : World → Prop) : PreOrder (keeps I).
Proof. split; unfold keeps; [intros w; tauto | intros a b c; tauto]. Qed.

Lemma pool_frame_keeps (limit : Z) {A} (c : M World A) :
  stable pool_frame c → stable (keeps (pool_inv limit)) c.
Proof.
  intros Hc w (Hnd & Hdisj & Hcount & Hdom). destruct (Hc w) as [Hp Hh].
  unfold pool_inv, state_inv. rewrite Hp. split_and!; try assumption.
  intros r Hr. apply Hh, Hdom, Hr.
Qed.

Lemma on_frame {A} (r : ref) (m : M Connection A) : stable pool_frame (on r m).
Proof.
  intros w. unfold on. destruct (heap w !! r) as [this|] eqn:Hr; [|reflexivity].
  destruct (m this) as [o this']. unfold pool_frame, set_heap; cbn.
  split; [reflexivity|]. rewrite dom_insert_L. set_solver.
Qed.

Lemma new_Connection_frame (client : string) : stable pool_frame (new_Connection client).
Proof.
  intros w. unfold pool_frame, new_Connection, set_shortids, set_heap; cbn.
  split; [reflexivity|]. rewrite dom_insert_L. set_solver.
Qed.

Lemma next_peer_frame : stable pool_frame next_peer.
Proof. intros w. cbn. split; [reflexivity | set_solver]. Qed.

Lemma log_frame (c : Call) : stable pool_frame (log c).
Proof. intros w. cbn. split; [reflexivity | set_solver]. Qed.

#[export] Hint Resolve on_frame new_Connection_frame next_peer_frame log_frame : stable.

Lemma create_frame (version : string) (this : Vndb) :
  stable pool_frame (create (factory version this)).
Proof. unfold factory, create. stable_auto. Qed.

Lemma destroy_frame (version : string) (this : Vndb) (r : ref) :
  stable pool_frame (Pool.destroy (factory version this) r).
Proof. unfold factory, Pool.destroy. stable_auto. Qed.

#[export] Hint Resolve create_frame destroy_frame : stable.

(** A Session that the factory creates is a new object of the store. *)
Lemma create_fresh (version : string) (this : Vndb) (w : World) (r : ref) :
  fst (create (factory version this) w) = Ret (Resolved r) →
  (r ∉ dom (heap w)) ∧ r ∈ dom (heap (snd (create (factory version this) w))).
Proof.
  assert (r = fresh (dom (heap w)) → r ∉ dom (heap w)) as Hfresh
    by (intros ->; apply is_fresh).
  unfold create, factory, new_Promise_async, try_catch, bind, outer, zoom,
    new_Connection, next_peer, on, await, call_resolve, call_reject, modify,
    set_heap, set_shortids, set_peers; cbn.
  rewrite lookup_insert_eq.
  destruct (connect _ _) as [[[|ok|e]|e|] c1]; cbn;
    try (intros H; discriminate H).
  rewrite lookup_insert_eq.
  destruct (login _ _ _ _) as [[[|ok'|e]|e|] c2]; cbn;
    try (intros H; discriminate H).
  intros [= <-]. split; [apply Hfresh; reflexivity|].
  rewrite !dom_insert_L. set_solver.
Qed.

Section StateInvariant.
Variables (limit : Z) (D : gset nat).

Lemma filter_ne_length (r : nat) (l : list nat) :
  r ∈ l → S (length (filter (λ x, x ≠ r) l)) ≤ length l.
Proof.
  induction l as [|x l IH]; [intros H; inversion H|].
  rewrite filter_cons. intros [Heq|Hin]%elem_of_cons.
  - subst x. destruct (decide (r ≠ r)) as [Hne|_]; [contradiction|].
    cbn. pose proof (length_filter (λ x, x ≠ r) l). lia.
  - specialize (IH Hin). destruct (decide (x ≠ r)); cbn; lia.
Qed.

Lemma filter_ne_absent (r : nat) (l : list nat) :
  r ∉ l → filter (λ x, x ≠ r) l = l.
Proof.
  induction l as [|x l IH]; [reflexivity|].
  intros Hnin. rewrite not_elem_of_cons in Hnin. destruct Hnin as [Hne Hnin].
  rewrite filter_cons. destruct (decide (x ≠ r)) as [_|Heq].
  - now rewrite IH.
  - exfalso. apply Heq. congruence.
Qed.

Lemma lend_idle (r : nat) (p : State) :
  state_inv limit D p → r ∈ available p → state_inv limit D (lend r p).
Proof.
  intros (Hnd & Hdisj & Hcount & Hdom) Hr. unfold state_inv, lend, count in *; cbn.
  split_and!.
  - now apply NoDup_filter.
  - intros x [Hx Hne]%list_elem_of_filter. specialize (Hdisj x Hne). set_solver.
  - pose proof (filter_ne_length r (available p) Hr).
    rewrite size_union by (specialize (Hdisj r Hr); set_solver).
    rewrite size_singleton. lia.
  - intros x [[_ Hx]%list_elem_of_filter|Hx]; [apply Hdom; auto|].
    apply elem_of_union in Hx as [->%elem_of_singleton|Hx]; apply Hdom; auto.
Qed.

Lemma lend_new (r : nat) (p : State) :
  state_inv limit D p → r ∉ available p → r ∉ loans p → r ∈ D →
  (Z.of_nat (count p) < limit)%Z → state_inv limit D (lend r p).
Proof.
  intros (Hnd & Hdisj & Hcount & Hdom) Hra Hrl HrD Hlt.
  unfold state_inv, lend, count in *; cbn. rewrite filter_ne_absent by assumption.
  split_and!.
  - assumption.
  - intros x Hx. specialize (Hdisj x Hx). set_solver.
  - rewrite size_union by set_solver. rewrite size_singleton. lia.
  - intros x [Hx|Hx]; [apply Hdom; auto|].
    apply elem_of_union in Hx as [->%elem_of_singleton|Hx]; [assumption | apply Hdom; auto].
Qed.

Lemma give_back_checked_out (r : nat) (p : State) :
  state_inv limit D p → r ∈ loans p → state_inv limit D (give_back r p).
Proof.
  intros (Hnd & Hdisj & Hcount & Hdom) Hr. unfold state_inv, give_back, count in *; cbn.
  split_and!.
  - apply NoDup_app. split_and!; [assumption | | apply NoDup_singleton].
    intros x Hx ->%list_elem_of_singleton. exact (Hdisj r Hx Hr).
  - intros x [Hx| ->%list_elem_of_singleton]%elem_of_app; [|set_solver].
    specialize (Hdisj x Hx). set_solver.
  - rewrite length_app. cbn.
    assert (size (loans p) = S (size (loans p ∖ {[r]}))) as Hsz.
    { assert (loans p = {[r]} ∪ loans p ∖ {[r]}) as Heq
        by (apply set_eq; intros x; destruct (decide (x = r)); set_solver).
      rewrite Heq at 1. rewrite size_union by set_solver.
      now rewrite size_singleton. }
    lia.
  - intros x [[Hx| ->%list_elem_of_singleton]%elem_of_app|Hx]; apply Hdom; auto.
    right. set_solver.
Qed.

Lemma add_idle_new (r : nat) (p : State) :
  state_inv limit D p → r ∉ available p → r ∉ loans p → r ∈ D →
  (Z.of_nat (count p) < limit)%Z → state_inv limit D (add_idle r p).
Proof.
  intros (Hnd & Hdisj & Hcount & Hdom) Hra Hrl HrD Hlt.
  unfold state_inv, add_idle, count in *; cbn.
  split_and!.
  - apply NoDup_app. split_and!; [assumption | | apply NoDup_singleton].
    intros x Hx ->%list_elem_of_singleton. contradiction.
  - intros x [Hx| ->%list_elem_of_singleton]%elem_of_app; auto.
  - rewrite length_app. cbn. lia.
  - intros x [[Hx| ->%list_elem_of_singleton]%elem_of_app|Hx]; auto.
Qed.

Lemma remove_idle_any (r : nat) (p : State) :
  state_inv limit D p → state_inv limit D (remove_idle r p).
Proof.
  intros (Hnd & Hdisj & Hcount & Hdom). unfold state_inv, remove_idle, count in *; cbn.
  split_and!.
  - now apply NoDup_filter.
  - intros x [_ Hx]%list_elem_of_filter. auto.
  - pose proof (length_filter (λ x, x ≠ r) (available p)). lia.
  - intros x [[_ Hx]%list_elem_of_filter|Hx]; auto.
Qed.

Lemma closed_any (p : State) : state_inv limit D p → state_inv limit D (closed p).
Proof. intros H. exact H. Qed.

Lemma emptied_any (p : State) : state_inv limit D p → state_inv limit D (emptied p).
Proof.
  intros (Hnd & Hdisj & Hcount & Hdom). unfold state_inv, emptied, count in *; cbn.
  split_and!; [apply NoDup_nil_2 | intros x Hx; inversion Hx | lia |].
  intros x [Hx|Hx]; [inversion Hx | auto].
Qed.

End StateInvariant.

Lemma state_inv_mono (limit : Z) (D D' : gset nat) (p : State) :
  D ⊆ D' → state_inv limit D p → state_inv limit D' p.
Proof.
  intros HD (Hnd & Hdisj & Hcount & Hdom). split_and!; try assumption.
  intros r Hr. apply HD, Hdom, Hr.
Qed.

(** The calls on the pool keep its invariant, for every factory whose
    [create] and [destroy] leave the pool alone and whose [create] yields
    new objects. *)
Section PoolOperations.
Variables (cfg : Config) (fac : Factory).
Hypothesis create_stable : stable pool_frame (create fac).
Hypothesis destroy_stable : ∀ r, stable pool_frame (Pool.destroy fac r).
Hypothesis create_new :
  ∀ w r, fst (create fac w) = Ret (Resolved r) →
         (r ∉ dom (heap w)) ∧ r ∈ dom (heap (snd (create fac w))).

Let inv := pool_inv (max cfg).

Lemma created_inv (w : World) (r : ref) :
  inv w → fst (create fac w) = Ret (Resolved r) →
  state_inv (max cfg) (dom (heap (snd (create fac w)))) (pool w)
  ∧ (r ∉ available (pool w)) ∧ (r ∉ loans (pool w))
  ∧ r ∈ dom (heap (snd (create fac w))).
Proof.
  intros Hinv Hr. destruct (create_stable w) as [_ Hd].
  destruct (create_new w r Hr) as [Hnew Hin].
  split_and!; [exact (state_inv_mono _ _ _ _ Hd Hinv) | | | exact Hin];
    intros Hmem; apply Hnew; destruct Hinv as (_ & _ & _ & Hdom); apply Hdom; auto.
Qed.

Lemma acquire_keeps : stable (keeps inv) (acquire cfg fac).
Proof.
  intros w Hinv. unfold acquire, new_Promise, bind, outer, zoom, get, modify,
    call_resolve, call_reject; cbn.
  destruct (draining (pool w)); cbn; [exact Hinv|].
  destruct (available (pool w)) as [|r rest] eqn:Hav; cbn.
  - destruct (Z.ltb_spec (Z.of_nat (count (pool w))) (max cfg)) as [Hlt|Hge];
      cbn; [|exact Hinv].
    pose proof (create_stable w) as [Hp Hd].
    pose proof (λ r, created_inv w r Hinv) as Hf.
    destruct (create fac w) as [[[|r|e]|e|] w2]; cbn in *;
      try (apply (state_inv_mono _ _ _ _ Hd); rewrite Hp; exact Hinv).
    destruct (Hf r eq_refl) as (Hst & Hra & Hrl & Hin).
    unfold inv, pool_inv, set_pool; cbn. rewrite Hp.
    now apply lend_new.
  - unfold inv, pool_inv, set_pool; cbn. apply lend_idle; [exact Hinv|].
    rewrite Hav. apply elem_of_cons; auto.
Qed.

Lemma release_keeps (r : ref) : stable (keeps inv) (release r).
Proof.
  intros w Hinv. unfold release, new_Promise, bind, outer, zoom, get, modify,
    call_resolve, call_reject; cbn.
  destruct (decide (r ∈ loans (pool w))) as [Hr|Hr]; cbn; [|exact Hinv].
  unfold inv, pool_inv, set_pool; cbn. now apply give_back_checked_out.
Qed.

Lemma evict_keeps (r : ref) : stable (keeps inv) (evict cfg fac r).
Proof.
  intros w Hinv. unfold evict, bind, get, modify; cbn.
  destruct (decide (r ∈ available (pool w))) as [Hr|Hr]; cbn; [|exact Hinv].
  destruct (min cfg <=? Z.of_nat (count (pool w)) - 1)%Z; cbn; [|exact Hinv].
  pose proof (pool_frame_keeps (max cfg) _ (destroy_stable r)
                (set_pool (remove_idle r (pool w)) w)) as Hd.
  destruct (Pool.destroy fac r _) as [[p|e|] w2]; cbn in *; apply Hd;
    unfold pool_inv, set_pool; cbn; now apply remove_idle_any.
Qed.

Lemma ensureMinimum_keeps : stable (keeps inv) (ensureMinimum cfg fac).
Proof.
  intros w Hinv. unfold ensureMinimum, bind, get, modify; cbn.
  destruct (draining (pool w)); cbn; [exact Hinv|].
  destruct (Z.ltb_spec (Z.of_nat (count (pool w))) (Z.min (min cfg) (max cfg)))
    as [Hlt|Hge]; cbn; [|exact Hinv].
  pose proof (create_stable w) as [Hp Hd].
  pose proof (λ r, created_inv w r Hinv) as Hf.
  destruct (create fac w) as [[[|r|e]|e|] w2]; cbn in *;
    try (apply (state_inv_mono _ _ _ _ Hd); rewrite Hp; exact Hinv).
  destruct (Hf r eq_refl) as (Hst & Hra & Hrl & Hin).
  unfold inv, pool_inv, set_pool; cbn. rewrite Hp.
  apply add_idle_new; try assumption. lia.
Qed.

Lemma drain_keeps : stable (keeps inv) drain.
Proof.
  intros w Hinv. unfold drain, new_Promise, bind, outer, zoom, get, modify,
    call_resolve; cbn.
  destruct (decide (loans (pool w) = ∅)); cbn; exact Hinv.
Qed.

Lemma destroy_all_frame (rs : list ref) : stable pool_frame (destroy_all fac rs).
Proof.
  induction rs as [|r rs IH]; cbn [destroy_all]; [apply stable_ret; typeclasses eauto|].
  apply stable_bind; [typeclasses eauto | apply destroy_stable | intros _; exact IH].
Qed.

Lemma clear_keeps : stable (keeps inv) (clear fac).
Proof.
  intros w Hinv. unfold clear, bind, get, modify; cbn.
  apply (pool_frame_keeps (max cfg) _ (destroy_all_frame (available (pool w)))).
  unfold pool_inv, set_pool; cbn. now apply emptied_any.
Qed.

End PoolOperations.

(** ** The methods of [Vndb] keep the invariant of the pool *)

Section VndbInvariant.
Variables (version : string) (this : Vndb).

Let inv := pool_inv (max (poolConfig this)).

Lemma on_keeps {A} (r : ref) (m : M Connection A) : stable (keeps inv) (on r m).
Proof. apply pool_frame_keeps, on_frame. Qed.

Lemma log_keeps (c : Call) : stable (keeps inv) (log c).
Proof. apply pool_frame_keeps, log_frame. Qed.

Lemma vndb_acquire_keeps :
  stable (keeps inv) (acquire (poolConfig this) (factory version this)).
Proof. apply acquire_keeps; [apply create_frame | apply create_fresh]. Qed.

Lemma vndb_release_keeps (r : ref) : stable (keeps inv) (release r).
Proof. apply release_keeps. Qed.

Lemma vndb_drain_keeps : stable (keeps inv) drain.
Proof. apply drain_keeps. Qed.

Lemma vndb_clear_keeps : stable (keeps inv) (clear (factory version this)).
Proof. apply clear_keeps. intros r. apply destroy_frame. Qed.

#[local] Hint Resolve on_keeps log_keeps vndb_acquire_keeps vndb_release_keeps
  vndb_drain_keeps vndb_clear_keeps : stable.

Lemma send_keeps (message : string) : stable (keeps inv) (send version this message).
Proof. unfold send, acquire_client, exchange. stable_auto. Qed.

Lemma destroy_keeps : stable (keeps inv) (Vndb.destroy version this).
Proof. unfold Vndb.destroy. stable_auto. Qed.

Lemma step_keeps (op : Op) : stable (keeps inv) (step version this op).
Proof.
  destruct op; cbn [step].
  - apply stable_bind; [typeclasses eauto | apply send_keeps | intros; apply stable_ret];
      typeclasses eauto.
  - apply stable_bind; [typeclasses eauto | apply destroy_keeps | intros; apply stable_ret];
      typeclasses eauto.
  - apply stable_bind; [typeclasses eauto | apply vndb_acquire_keeps | intros; apply stable_ret];
      typeclasses eauto.
  - apply stable_bind; [typeclasses eauto | apply release_keeps | intros; apply stable_ret];
      typeclasses eauto.
  - apply evict_keeps. intros r'. apply destroy_frame.
  - apply ensureMinimum_keeps; [apply create_frame | apply create_fresh].
  - apply stable_bind; [typeclasses eauto | apply drain_keeps | intros; apply stable_ret];
      typeclasses eauto.
  - apply vndb_clear_keeps.
Qed.

Lemma run_keeps (ops : list Op) (w : World) : inv w → inv (run version this ops w).
Proof.
  revert w. induction ops as [|op ops IH]; intros w Hinv; cbn; [exact Hinv|].
  apply IH. exact (step_keeps op w Hinv).
Qed.

End VndbInvariant.

Lemma init_inv (limit : Z) (ids : list string) (net : list Peer) :
  (0 ≤ limit)%Z → pool_inv limit (init ids net).
Proof.
  intros Hl. unfold pool_inv, state_inv, init, count; cbn.
  split_and!; [apply NoDup_nil_2 | intros r Hr; inversion Hr | | ].
  - rewrite size_empty. lia.
  - intros r [Hr|Hr]; [inversion Hr | set_solver].
Qed.

(** C8. Whatever settings object the [Vndb] is constructed with, the
    maximum of its pool is 10; and after every sequence of calls of
    [send] and [destroy], of single calls on the pool and of background
    steps of the pool, the idle Sessions and the Sessions in use are at
    most 10 together, no Session is idle twice, and no Session is both
    idle and in use. *)
Theorem pool_size_invariant (version clientName : string) (settings : option Settings)
    (ids : list string) (net : list Peer) (ops : list Op) :
  let this := Vndb.constructor clientName settings in
  let p := pool (run version this ops (init ids net)) in
  max (poolConfig this) = 10%Z
  ∧ length (available p) + size (loans p) ≤ 10
  ∧ NoDup (available p)
  ∧ (list_to_set (available p) : gset nat) ## loans p.
Proof.
  intros this p. split; [reflexivity|].
  assert (pool_inv 10 (run version this ops (init ids net))) as (Hnd & Hdisj & Hcount & _).
  { apply (run_keeps version this). apply init_inv. cbn. lia. }
  fold p in Hnd, Hdisj, Hcount. unfold count in Hcount.
  split_and!; [lia | exact Hnd |].
  intros r Hr%elem_of_list_to_set. exact (Hdisj r Hr).
Qed.

(** ** [Vndb.send] *)

Section Send.
Variables (version : string) (this : Vndb).

Lemma acquire_resolved (cfg : Config) (fac : Factory) (w w' : World) (c : ref) :
  acquire cfg fac w = (Ret (Resolved c), w') →
  c ∈ loans (pool w') ∧ calls w' = calls (snd (create fac w)) ∨
  c ∈ loans (pool w') ∧ calls w' = calls w.
Proof.
  unfold acquire, new_Promise, bind, outer, zoom, get, modify,
    call_resolve, call_reject; cbn.
  destruct (draining (pool w)); cbn; [intros H; discriminate H|].
  destruct (available (pool w)) as [|r rest]; cbn.
  - destruct (Z.of_nat (count (pool w)) <? max cfg)%Z; cbn; [|intros H; discriminate H].
    destruct (create fac w) as [[[|r|e]|e|] w2]; cbn; intros H; try discriminate H.
    injection H as <- <-. left. cbn. split; [set_solver | reflexivity].
  - intros H. injection H as <- <-. right. cbn. split; [set_solver | reflexivity].
Qed.


Lemma on_run {A} (r : ref) (m : M Connection A) (w : World) :
  ∃ o w',
    on r m w = (o, w')
    ∧ pool w' = pool w
    ∧ calls w' = calls w
    ∧ (∀ conn, heap w !! r = Some conn →
         o = fst (m conn) ∧ heap w' !! r = Some (snd (m conn)))
    ∧ (heap w !! r = None → w' = w ∧ ∃ e, o = Throw e).
Proof.
  unfold on. destruct (heap w !! r) as [conn|] eqn:Hr.
  - destruct (m conn) as [o conn'] eqn:Hm. eexists _, _. split; [reflexivity|].
    unfold set_heap; cbn. split_and!; try reflexivity.
    + intros ? [= <-]. rewrite Hm, lookup_insert_eq. auto.
    + intros H; discriminate H.
  - eexists _, _. split; [reflexivity|]. split_and!; try reflexivity.
    + intros ? H; discriminate H.
    + intros _. eauto.
Qed.

Lemma write_facts (message : string) (conn : Connection) :
  fst (write message conn) ≠ Hang ∧ same_end conn (snd (write message conn)).
Proof.
  unfold write, bind, get, this_socket, update_socket, modify, same_end.
  destruct conn as [e u po [sock|] enc id]; cbn; split; (discriminate || reflexivity).
Qed.

Lemma read_facts (conn : Connection) :
  (∃ p, fst (read conn) = Ret p) ∧ same_end conn (snd (read conn)).
Proof.
  destruct conn as [e u po [sock|] enc id].
  - change {| eot := e; uri := u; port := po; socket := Some sock; encoding := enc;
              socketID := id |}
      with (set_socket (Some sock)
              {| eot := e; uri := u; port := po; socket := Some sock; encoding := enc;
                 socketID := id |}).
    rewrite read_run. cbn. split; [eauto | reflexivity].
  - cbn. split; [eauto | reflexivity].
Qed.

Lemma release_run (c : ref) (w : World) :
  c ∈ loans (pool w) →
  release c w = (Ret (Resolved tt), set_pool (give_back c (pool w)) w).
Proof.
  intros Hc. unfold release, new_Promise, bind, outer, zoom, get, modify, call_resolve; cbn.
  destruct (decide (c ∈ loans (pool w))); [reflexivity | contradiction].
Qed.

(** The exchange of [send] on a Session that is checked out: once the
    promise of [send] is settled, [release] has been called on the
    Session, which is back in the idle queue, and [socket.end()] has
    not been called on its socket. *)
Lemma exchange_checked_out (message : string) (c : ref) (w : World) :
  c ∈ loans (pool w) →
  ∃ o p w',
    exchange message (Some c) (w, Pending) = (o, (w', p))
    ∧ (p = Pending → o = Hang)
    ∧ (p ≠ Pending →
       o = Ret tt
       ∧ calls w' = calls w ++ [Release c]
       ∧ pool w' = give_back c (pool w))
    ∧ (∀ conn, heap w !! c = Some conn →
         ∃ conn', heap w' !! c = Some conn' ∧ same_end conn conn').
Proof.
  intros Hc.
  unfold exchange, try_finally, try_catch, socketID_of, bind, ret, outer, zoom,
    call_resolve, call_reject, modify, await.
  cbn -[on write read release log].
  destruct (on_run c (write message) w) as (o1 & w1 & -> & Hp1 & Hc1 & Hs1 & Hn1).
  assert (∀ conn, heap w !! c = Some conn →
            ∃ conn', heap w1 !! c = Some conn' ∧ same_end conn conn') as Hh1.
  { intros conn Hconn. destruct (heap w !! c) as [conn0|] eqn:Hw; [|discriminate].
    injection Hconn as ->. destruct (Hs1 conn eq_refl) as [_ ->].
    eexists; split; [reflexivity | apply write_facts]. }
  destruct o1 as [[]|e|].
  - (* the write returned *)
    cbn [fst snd].
    destruct (on_run c read w1) as (o2 & w2 & -> & Hp2 & Hc2 & Hs2 & Hn2).
    assert (∀ conn, heap w !! c = Some conn →
              ∃ conn', heap w2 !! c = Some conn' ∧ same_end conn conn') as Hh2.
    { intros conn Hconn. destruct (Hh1 conn Hconn) as (conn1 & Hconn1 & Hse1).
      destruct (Hs2 conn1 Hconn1) as [_ ->]. eexists; split; [reflexivity|].
      unfold same_end in *. rewrite <- Hse1. apply read_facts. }
    assert (c ∈ loans (pool w2)) as Hc2' by (rewrite Hp2, Hp1; exact Hc).
    destruct o2 as [[|v|r]|e|]; cbn -[release log].
    + eexists _, _, _. split; [reflexivity|]. split_and!; try reflexivity; try assumption.
      intros H; contradiction.
    + unfold log, modify; cbn -[release]. rewrite release_run by (cbn; exact Hc2').
      eexists _, _, _. split; [reflexivity|]. cbn.
      split_and!; try (intros H; discriminate H); try assumption.
      intros _. rewrite Hc2, Hc1, Hp2, Hp1. auto.
    + unfold log, modify; cbn -[release]. rewrite release_run by (cbn; exact Hc2').
      eexists _, _, _. split; [reflexivity|]. cbn.
      split_and!; try (intros H; discriminate H); try assumption.
      intros _. rewrite Hc2, Hc1, Hp2, Hp1. auto.
    + unfold log, modify; cbn -[release]. rewrite release_run by (cbn; exact Hc2').
      eexists _, _, _. split; [reflexivity|]. cbn.
      split_and!; try (intros H; discriminate H); try assumption.
      intros _. rewrite Hc2, Hc1, Hp2, Hp1. auto.
    + exfalso. destruct (heap w1 !! c) as [conn1|] eqn:Hw1.
      * destruct (Hs2 conn1 eq_refl) as [Ho _].
        destruct (read_facts conn1) as [[p Hp] _]. congruence.
      * destruct (Hn2 eq_refl) as [_ [e He]]. discriminate He.
  - (* the write threw *)
    assert (c ∈ loans (pool w1)) as Hc1' by (rewrite Hp1; exact Hc).
    cbn -[release log].
    unfold log, modify; cbn -[release]. rewrite release_run by (cbn; exact Hc1').
    eexists _, _, _. split; [reflexivity|]. cbn.
    split_and!; try (intros H; discriminate H); try assumption.
    intros _. rewrite Hc1, Hp1. auto.
  - exfalso. destruct (heap w !! c) as [conn|] eqn:Hw.
    + destruct (Hs1 conn eq_refl) as [Ho _].
      destruct (write_facts message conn) as [Hnh _]. congruence.
    + destruct (Hn1 eq_refl) as [_ [e He]]. discriminate He.
Qed.

Lemma acquired_loan (w w1 : World) (c : ref) :
  acquired version this w = Some (c, w1) → c ∈ loans (pool w1).
Proof.
  unfold acquired, bind, log, modify; cbn -[acquire].
  destruct (acquire _ _ _) as [[[|c'|r]|e|] w1'] eqn:Hacq; intros H; try discriminate H.
  injection H as -> ->.
  destruct (acquire_resolved _ _ _ _ _ Hacq) as [[H _]|[H _]]; exact H.
Qed.

(** [send] from the acquisition on. *)
Lemma send_after_acquire (message : string) (w w1 : World) (c : ref) :
  acquired version this w = Some (c, w1) →
  send version this message w
  = (Ret (snd (snd (exchange message (Some c) (w1, Pending)))),
     fst (snd (exchange message (Some c) (w1, Pending)))).
Proof.
  unfold acquired, send, new_Promise, async_callback, acquire_client, try_catch,
    bind, outer, zoom, log, modify, await, ret; cbn -[acquire exchange].
  destruct (acquire _ _ _) as [[[|c'|r]|e|] w1'] eqn:Hacq; intros H; try discriminate H.
  injection H as -> ->. cbn -[exchange].
  destruct (exchange message (Some c) (w1, Pending)) as [o [w' p]]; reflexivity.
Qed.

(** While the promise of [send] is pending, nothing has been released. *)
Lemma exchange_suspended (message : string) (c : ref) (w w' : World) (o : outcome unit) :
  exchange message (Some c) (w, Pending) = (o, (w', Pending)) → quiet w w'.
Proof.
  unfold exchange, try_finally, try_catch, socketID_of, bind, ret, outer, zoom,
    call_resolve, call_reject, modify, await.
  cbn -[on write read release log].
  destruct (on_run c (write message) w) as (o1 & w1 & -> & Hp1 & Hc1 & _ & _).
  destruct o1 as [[]|e|]; cbn [fst snd].
  - destruct (on_run c read w1) as (o2 & w2 & -> & Hp2 & Hc2 & _ & _).
    destruct o2 as [[|v|r]|e|]; cbn -[release log].
    + intros [= <- <-]. split; congruence.
    + unfold log, modify; cbn -[release].
      destruct (release c _) as [[x|x|] w3]; cbn; intros H; discriminate H.
    + unfold log, modify; cbn -[release].
      destruct (release c _) as [[x|x|] w3]; cbn; intros H; discriminate H.
    + unfold log, modify; cbn -[release].
      destruct (release c _) as [[x|x|] w3]; cbn; intros H; discriminate H.
    + intros [= <- <-]. split; congruence.
  - cbn -[release log]. unfold log, modify; cbn -[release].
    destruct (release c _) as [[x|x|] w3]; cbn; intros H; discriminate H.
  - intros [= <- <-]. split; congruence.
Qed.

(** The promise of [send] after the exchange is the outcome of the
    write-then-read on the Session. *)
Lemma exchange_promise (message : string) (c : ref) (w w' : World)
    (o : outcome unit) (p : promise string) :
  exchange message (Some c) (w, Pending) = (o, (w', p)) →
  p = exchange_outcome message c w.
Proof.
  unfold exchange, try_finally, try_catch, socketID_of, bind, ret, outer, zoom,
    call_resolve, call_reject, modify, await, exchange_outcome, write_then_read.
  cbn -[on write read release log].
  destruct (heap w !! c) as [conn|] eqn:Hw.
  - destruct (on_run c (write message) w) as (o1 & w1 & -> & _ & _ & Hs1 & _).
    destruct (Hs1 conn Hw) as [-> Hw1]. cbn [fst snd].
    destruct (write message conn) as [[[]|e|] conn1]; cbn [fst snd] in *.
    + destruct (on_run c read w1) as (o2 & w2 & -> & _ & _ & Hs2 & _).
      destruct (Hs2 conn1 Hw1) as [-> _]. cbn [fst snd].
      destruct (read conn1) as [[[|v|r]|e|] conn2]; cbn -[release log];
        unfold log, modify; cbn -[release];
        try (destruct (release c _) as [[x|x|] w3]; cbn);
        intros H; injection H as _ _ <-; reflexivity.
    + cbn -[release log]. unfold log, modify; cbn -[release].
      destruct (release c _) as [[x|x|] w3]; cbn;
        intros H; injection H as _ _ <-; reflexivity.
    + intros H; injection H as _ _ <-; reflexivity.
  - unfold on. rewrite Hw. cbn -[release log]. unfold log, modify; cbn -[release].
    destruct (release c _) as [[x|x|] w3]; cbn;
      intros H; injection H as _ _ <-; reflexivity.
Qed.

End Send.

(** C1. In every call of [send] that has acquired a Session [c] from
    the pool, [c] is checked out at that point and [send] returns the
    promise of the write-then-read exchange on [c]. On every exit path,
    the promise resolved with the response of the read or rejected with
    the error of the write or of the read, the last call made is
    [pool.release(c)] and [c] is no longer checked out; as long as the
    read is pending, nothing has been released. *)
Theorem send_releases (version : string) (this : Vndb) (message : string)
    (w w1 : World) (c : ref) :
  acquired version this w = Some (c, w1) →
  ∃ w',
    send version this message w = (Ret (exchange_outcome message c w1), w')
    ∧ c ∈ loans (pool w1)
    ∧ (∀ response, exchange_outcome message c w1 = Resolved response →
         calls w' = calls w1 ++ [Release c] ∧ pool w' = give_back c (pool w1)
         ∧ c ∉ loans (pool w'))
    ∧ (∀ err, exchange_outcome message c w1 = Rejected err →
         calls w' = calls w1 ++ [Release c] ∧ pool w' = give_back c (pool w1)
         ∧ c ∉ loans (pool w'))
    ∧ (exchange_outcome message c w1 = Pending →
         calls w' = calls w1 ∧ pool w' = pool w1).
Proof.
  intros Hacq. pose proof (acquired_loan _ _ _ _ _ Hacq) as Hc.
  rewrite (send_after_acquire _ _ message _ _ _ Hacq).
  destruct (exchange_checked_out message c w1 Hc) as (o & p & w' & Hex & _ & Hset & _).
  rewrite Hex. cbn [fst snd].
  pose proof (exchange_promise _ _ _ _ _ _ Hex) as <-.
  exists w'. split; [reflexivity|]. split; [exact Hc|].
  split_and!.
  - intros x ->. destruct Hset as (_ & Hcalls & Hpool); [discriminate|].
    split_and!; [exact Hcalls | exact Hpool | rewrite Hpool; cbn; set_solver].
  - intros x ->. destruct Hset as (_ & Hcalls & Hpool); [discriminate|].
    split_and!; [exact Hcalls | exact Hpool | rewrite Hpool; cbn; set_solver].
  - intros ->. destruct (exchange_suspended _ _ _ _ _ Hex) as [Hpool Hcalls].
    split; assumption.
Qed.

(** C2, as the code has it. In every call of [send] that has acquired a
    Session [c] and is rejected, by an error of the write or of the
    read, [c] is released like any other Session: afterwards it is in
    the idle queue of the pool and not checked out, and [socket.end()]
    has not been called on it by the call. *)
Theorem send_failure_returns_to_idle (version : string) (this : Vndb) (message : string)
    (w w1 w' : World) (c : ref) (err : reason) :
  acquired version this w = Some (c, w1) →
  send version this message w = (Ret (Rejected err), w') →
  c ∈ available (pool w')
  ∧ (c ∉ loans (pool w'))
  ∧ calls w' = calls w1 ++ [Release c]
  ∧ (∀ conn, heap w1 !! c = Some conn →
       ∃ conn', heap w' !! c = Some conn' ∧ same_end conn conn').
Proof.
  intros Hacq. pose proof (acquired_loan _ _ _ _ _ Hacq) as Hc.
  rewrite (send_after_acquire _ _ message _ _ _ Hacq).
  destruct (exchange_checked_out message c w1 Hc) as (o & p & w2 & -> & _ & Hset & Hheap).
  cbn [fst snd]. intros [= -> ->].
  destruct Hset as (_ & Hcalls & Hpool); [discriminate|].
  split_and!; [ | | exact Hcalls | exact Hheap]; rewrite Hpool; cbn; set_solver.
Qed.

(** ** Concrete runs *)


Lemma send_releases_witness :
  let w := init ["a"] [answering] in
  let response := "results {}" +:+ String "004" EmptyString in
  acquired "1.0.0" demo w = Some (0, after_acquire w)
  ∧ exchange_outcome "get vn basic (id = 17)" 0 (after_acquire w) = Resolved response
  ∧ ∃ w',
      send "1.0.0" demo "get vn basic (id = 17)" w = (Ret (Resolved response), w')
      ∧ calls w' = calls (after_acquire w) ++ [Release 0]
      ∧ pool w' = give_back 0 (pool (after_acquire w))
      ∧ 0 ∉ loans (pool w').
Proof.
  intros w response.
  assert (acquired "1.0.0" demo w = Some (0, after_acquire w)) as Hacq
    by (vm_compute; reflexivity).
  assert (exchange_outcome "get vn basic (id = 17)" 0 (after_acquire w)
          = Resolved response) as Hout by (vm_compute; reflexivity).
  split; [exact Hacq|]. split; [exact Hout|].
  destruct (send_releases "1.0.0" demo "get vn basic (id = 17)" w (after_acquire w) 0 Hacq)
    as (w' & Hsend & _ & Hres & _ & _).
  rewrite Hout in Hsend. exists w'. split; [exact Hsend|].
  exact (Hres response Hout).
Defined.

(** Against C2: the server resets the connection while [send] waits for
    the response; [send] rejects with that error, and the Session is in
    the idle queue afterwards, where the next [send] acquires it. *)
Lemma errored_session_is_idle :
  let w := init ["a"] [resetting] in
  let sent := send "1.0.0" demo "get vn basic (id = 17)" w in
  fst <$> acquired "1.0.0" demo w = Some 0
  ∧ fst sent = Ret (Rejected (RError (SocketError "ECONNRESET")))
  ∧ available (pool (snd sent)) = [0]
  ∧ loans (pool (snd sent)) = ∅
  ∧ fst <$> acquired "1.0.0" demo (snd sent) = Some 0.
Proof. vm_compute. repeat split; reflexivity. Qed.

Lemma send_failure_returns_to_idle_witness :
  let w := init ["a"] [resetting] in
  let sent := send "1.0.0" demo "get vn basic (id = 17)" w in
  0 ∈ available (pool (snd sent))
  ∧ (0 ∉ loans (pool (snd sent)))
  ∧ calls (snd sent) = calls (after_acquire w) ++ [Release 0]
  ∧ (∀ conn, heap (after_acquire w) !! 0 = Some conn →
       ∃ conn', heap (snd sent) !! 0 = Some conn' ∧ same_end conn conn').
Proof.
  intros w sent.
  assert (acquired "1.0.0" demo w = Some (0, after_acquire w)) as Hacq
    by (vm_compute; reflexivity).
  assert (send "1.0.0" demo "get vn basic (id = 17)" w
          = (Ret (Rejected (RError (SocketError "ECONNRESET"))), snd sent)) as Hsend
    by (vm_compute; reflexivity).
  exact (send_failure_returns_to_idle "1.0.0" demo "get vn basic (id = 17)"
           w (after_acquire w) (snd sent) 0 (RError (SocketError "ECONNRESET")) Hacq Hsend).
Defined.

(** ** The rate limiter *)

(** *** What [send] asks of the limiter *)

#[export] Instance releases_only_preorder : PreOrder releases_only.
Proof.
  split.
  - intros w. exists []. split; [now rewrite app_nil_r | constructor].
  - intros a b c (l1 & H1 & F1) (l2 & H2 & F2). exists (l1 ++ l2). split.
    + rewrite H2, H1. now rewrite app_assoc.
    + apply Forall_app. split; assumption.
Qed.

Lemma same_calls_releases (w w' : World) : calls w' = calls w → releases_only w w'.
Proof. intros H. exists []. split; [now rewrite app_nil_r | constructor]. Qed.

Lemma on_releases {A} (r : ref) (m : M Connection A) : stable releases_only (on r m).
Proof.
  intros w. apply same_calls_releases. unfold on.
  destruct (heap w !! r) as [this|]; [|reflexivity].
  destruct (m this) as [o this']. reflexivity.
Qed.

Lemma new_Connection_releases (client : string) :
  stable releases_only (new_Connection client).
Proof. intros w. apply same_calls_releases. reflexivity. Qed.

Lemma next_peer_releases : stable releases_only next_peer.
Proof. intros w. apply same_calls_releases. reflexivity. Qed.

Lemma log_release_releases (c : ref) : stable releases_only (log (Release c)).
Proof.
  intros w. exists [Release c]. split; [reflexivity|].
  repeat constructor. now exists c.
Qed.

Lemma set_pool_releases (f : World → State) :
  stable releases_only (modify (fun w => set_pool (f w) w)).
Proof. intros w. apply same_calls_releases. reflexivity. Qed.

#[export] Hint Resolve on_releases new_Connection_releases next_peer_releases
  log_release_releases set_pool_releases : stable.



Lemma release_releases (r : ref) : stable releases_only (release r).
Proof. unfold release. stable_auto. Qed.

#[export] Hint Resolve release_releases : stable.



(** *** The invariant of the bucket *)

Section LimiterFacts.
Context {A : Type}.
Variables (C I : Z).
Hypotheses (HC : (0 ≤ C)%Z) (HI : (0 < I)%Z).













End LimiterFacts.




(** * Further properties *)

(** ** [Connection.read] on a stream *)

Section ReadStream.
Variable eot : string.

Lemma accumulate_snoc (chunk : string) (chunks : list string) (d : string) :
  accumulate chunk (chunks ++ [d]) = accumulate chunk chunks +:+ d.
Proof. unfold accumulate. now rewrite fold_left_app. Qed.

(** Chunks after which the accumulated data never ends with the
    terminator are all consumed, and the listeners go on with the data
    accumulated. *)
Lemma read_events_unfinished (chunks : list string) :
  ∀ chunk evs,
    (∀ j, 0 < j ≤ length chunks →
          endsWith (accumulate chunk (take j chunks)) eot = false) →
    read_events eot chunk ((Data <$> chunks) ++ evs)
    = read_events eot (accumulate chunk chunks) evs.
Proof.
  induction chunks as [|d chunks IH]; intros chunk evs Hno; [reflexivity|].
  rewrite fmap_cons, <- app_comm_cons. cbn [read_events].
  pose proof (Hno 1 ltac:(cbn; lia)) as H1. cbn in H1. rewrite take_0 in H1. cbn in H1.
  rewrite H1. apply IH. intros j Hj. apply (Hno (S j)). cbn. lia.
Qed.

End ReadStream.

Lemma unfinished_endsWith (chunks : list string) :
  (∀ j, ¬ ends_with_terminator (accumulate "" (take j chunks))) →
  ∀ j, 0 < j ≤ length chunks →
       endsWith (accumulate "" (take j chunks)) (String "004" EmptyString) = false.
Proof. intros Hno j _. apply endsWith_false, Hno. Qed.

(** X1. When the socket emits 'error' before the accumulated data ends
    with the terminator, [read()] rejects with that error; the data
    accumulated so far is dropped and the events after the error are
    left on the socket. *)
Theorem read_error (client shortid : string) (sock : TLSSocket)
    (chunks : list string) (err : error) (rest : list SockEvent) :
  (∀ j, ¬ ends_with_terminator (accumulate "" (take j chunks))) →
  read (set_socket (Some (set_incoming ((Data <$> chunks) ++ Error err :: rest) sock))
          (Connection.constructor client shortid))
  = (Ret (Rejected (RError err)),
     set_socket (Some (set_incoming rest sock)) (Connection.constructor client shortid)).
Proof.
  intros Hno. rewrite read_run. cbn [incoming set_incoming eot Connection.constructor].
  rewrite read_events_unfinished by now apply unfinished_endsWith.
  reflexivity.
Qed.

Lemma read_error_witness :
  fst (read (set_socket
               (Some (tls_connect {| handshake := SecureConnect true;
                                     events := [Data "resu"; Error (SocketError "EPIPE")] |}))
               (Connection.constructor "demo" "id")))
  = Ret (Rejected (RError (SocketError "EPIPE"))).
Proof.
  refine (f_equal fst
            (read_error "demo" "id"
               (tls_connect {| handshake := SecureConnect true; events := [] |})
               ["resu"] (SocketError "EPIPE") [] _)).
  intros [|[|j]] [body Hb]; vm_compute in Hb;
    destruct body as [|c1 [|c2 [|c3 [|c4 [|c5 body]]]]]; discriminate Hb.
Defined.

(** X2. The 'end' event has no listener in [read()]: when the peer ends
    the stream before the accumulated data ends with the terminator,
    the promise is never settled. *)
Theorem read_end_pending (client shortid : string) (sock : TLSSocket) (chunks : list string) :
  (∀ j, ¬ ends_with_terminator (accumulate "" (take j chunks))) →
  read (set_socket (Some (set_incoming ((Data <$> chunks) ++ [Ended]) sock))
          (Connection.constructor client shortid))
  = (Ret Pending,
     set_socket (Some (set_incoming [] sock)) (Connection.constructor client shortid)).
Proof.
  intros Hno. rewrite read_run. cbn [incoming set_incoming eot Connection.constructor].
  rewrite read_events_unfinished by now apply unfinished_endsWith.
  reflexivity.
Qed.

Lemma read_end_pending_witness :
  fst (read (set_socket
               (Some (tls_connect {| handshake := SecureConnect true;
                                     events := [Data "resu"; Ended] |}))
               (Connection.constructor "demo" "id")))
  = Ret Pending.
Proof.
  refine (f_equal fst
            (read_end_pending "demo" "id"
               (tls_connect {| handshake := SecureConnect true; events := [] |})
               ["resu"] _)).
  intros [|[|j]] [body Hb]; vm_compute in Hb;
    destruct body as [|c1 [|c2 [|c3 [|c4 [|c5 body]]]]]; discriminate Hb.
Defined.

(** ** Reassembling a frame *)

Lemma append_assoc (a b c : string) : (a +:+ b) +:+ c = a +:+ (b +:+ c).
Proof.
  induction a as [|x a IH]; rewrite ?append_cons, ?append_empty; [reflexivity|].
  now rewrite IH.
Qed.

Lemma append_nil_r (a : string) : a +:+ "" = a.
Proof.
  induction a as [|x a IH]; rewrite ?append_cons, ?append_empty; [reflexivity|].
  now rewrite IH.
Qed.

Lemma accumulate_from (chunk : string) (chunks : list string) :
  accumulate chunk chunks = chunk +:+ accumulate "" chunks.
Proof.
  revert chunk. induction chunks as [|d chunks IH]; intros chunk.
  - cbn. now rewrite append_nil_r.
  - change (accumulate chunk (d :: chunks)) with (accumulate (chunk +:+ d) chunks).
    change (accumulate "" (d :: chunks)) with (accumulate ("" +:+ d) chunks).
    rewrite IH, (IH ("" +:+ d)), append_empty. apply append_assoc.
Qed.

Lemma accumulate_take_drop (chunks : list string) (k : nat) :
  accumulate "" chunks = accumulate "" (take k chunks) +:+ accumulate "" (drop k chunks).
Proof.
  rewrite <- (take_drop k chunks) at 1. unfold accumulate at 1.
  rewrite fold_left_app. apply accumulate_from.
Qed.

(** A frame that ends with the terminator inside a longer one that ends
    with the terminator too: either nothing follows it, or the
    terminator occurs inside the body of the longer one. *)
Lemma terminator_inside (c : ascii) (body : string) :
  ∀ front tail,
    body +:+ String c EmptyString = front +:+ String c tail →
    tail = EmptyString ∨ ∃ t, body = front +:+ String c t.
Proof.
  induction body as [|y body IH]; intros front tail;
    destruct front as [|x front]; rewrite ?append_cons, ?append_empty; intros H.
  - injection H as <-. now left.
  - injection H as _ H. destruct front; discriminate H.
  - injection H as -> H. right. exists body. reflexivity.
  - injection H as -> H. destruct (IH front tail H) as [->|[t ->]]; [now left|].
    right. exists t. reflexivity.
Qed.

(** X3. Whatever way a frame whose body has no terminator is cut into
    chunks, [read()] puts it together again: it resolves with the body
    followed by the terminator. *)
Theorem read_reassembles (client shortid : string) (sock : TLSSocket)
    (body : string) (chunks : list string) :
  no_terminator body →
  accumulate "" chunks = body +:+ String "004" EmptyString →
  fst (read (set_socket (Some (set_incoming (Data <$> chunks) sock))
               (Connection.constructor client shortid)))
  = Ret (Resolved (body +:+ String "004" EmptyString)).
Proof.
  intros Hbody Hall. rewrite read_run. cbn [fst incoming set_incoming eot Connection.constructor].
  pose proof (read_events_data (String "004" EmptyString) chunks "") as H.
  destruct (read_events (String "004" EmptyString) "" (Data <$> chunks))
    as [[|frame|r] rest]; cbn [fst].
  - exfalso. destruct H as [_ H]. destruct chunks as [|d chunks].
    + cbn in Hall. destruct body; discriminate Hall.
    + specialize (H (length (d :: chunks)) ltac:(cbn; lia)).
      rewrite take_ge in H by lia. rewrite Hall in H.
      apply endsWith_false in H. apply H. eauto.
  - destruct H as (k & Hk & -> & [front Hfront]%endsWith_spec & _ & _).
    rewrite (accumulate_take_drop chunks (S k)), Hfront, append_assoc in Hall.
    rewrite append_cons, append_empty in Hall. symmetry in Hall.
    destruct (terminator_inside _ _ _ _ Hall) as [Htail|[t Ht]].
    + rewrite Htail in Hall. rewrite Hfront. now rewrite Hall.
    + exfalso. exact (Hbody _ _ Ht).
  - destruct H.
Qed.

Lemma read_reassembles_witness :
  fst (read (set_socket
               (Some (tls_connect
                        {| handshake := SecureConnect true;
                           events := Data <$> ["re"; ""; "sults"; String "004" EmptyString] |}))
               (Connection.constructor "demo" "id")))
  = Ret (Resolved ("results" +:+ String "004" EmptyString)).
Proof.
  refine (read_reassembles "demo" "id"
            (tls_connect {| handshake := SecureConnect true; events := [] |})
            "results" ["re"; ""; "sults"; String "004" EmptyString] _ eq_refl).
  intros a b Hab.
  destruct a as [|a1 [|a2 [|a3 [|a4 [|a5 [|a6 [|a7 [|a8 a]]]]]]]]; vm_compute in Hab;
    discriminate Hab.
Defined.

(** ** A [Connection] without a socket, and after [connect] *)

(** X4. On a [Connection] that was never connected, [write] throws a
    TypeError, [read()] returns a promise rejected with a TypeError, and
    [login] returns a promise that is never settled: the throw of
    [write] inside its async executor settles nothing. None of the three
    changes the object. *)
Theorem unconnected_methods (client shortid version message : string)
    (username password : jsval) :
  let this := Connection.constructor client shortid in
  write message this
  = (Throw (RError (TypeError "Cannot read property 'write' of undefined")), this)
  ∧ read this
    = (Ret (Rejected (RError (TypeError "Cannot read property 'once' of undefined"))), this)
  ∧ login version username password this = (Ret Pending, this).
Proof. intros this. split_and!; reflexivity. Qed.

Lemma login_promise (version : string) (username password : jsval)
    (this : Connection) (sock : TLSSocket) :
  fst (login version username password (set_socket (Some sock) this))
  = Ret (match fst (read_events (eot this) "" (incoming sock)) with
         | Resolved response =>
             if String.eqb response ("ok" +:+ eot this) then Resolved response
             else Rejected (RString response)
         | Rejected err => Rejected err
         | Pending => Pending
         end).
Proof.
  unfold login, new_Promise_async, bind, outer, zoom, get, try_catch,
    write, read, new_Promise, this_socket, update_socket, modify, await,
    call_resolve, call_reject; cbn.
  destruct (read_events (eot this) "" (incoming sock)) as [[|response|r] rest]; cbn;
    try reflexivity.
  destruct (String.eqb response ("ok" +:+ eot this)); reflexivity.
Qed.

(** X5. When the socket emits 'error' while [login] waits for the
    answer, [login] rejects with that error; while no frame is complete
    its promise stays pending. *)
Theorem login_follows_read (version client shortid : string) (username password : jsval)
    (sock : TLSSocket) :
  let this := set_socket (Some sock) (Connection.constructor client shortid) in
  match fst (read_events (String "004" EmptyString) "" (incoming sock)) with
  | Rejected err => fst (login version username password this) = Ret (Rejected err)
  | Pending => fst (login version username password this) = Ret Pending
  | Resolved response =>
      fst (login version username password this) = Ret (Resolved response)
      ∨ fst (login version username password this) = Ret (Rejected (RString response))
  end.
Proof.
  intros this. unfold this. rewrite login_promise. cbn [eot Connection.constructor].
  destruct (fst (read_events _ _ _)) as [|response|err]; try reflexivity.
  destruct (String.eqb response _); auto.
Qed.

(** X6. [connect()] assigns [this.socket] before the handshake ends, so
    after [connect()], resolved or not, [destroy()] does not reject: it
    calls [socket.end()] and its promise is resolved or pending. *)
Theorem destroy_after_connect (peer : Peer) (this : Connection) :
  ∃ sock,
    socket (snd (connect peer this)) = Some sock
    ∧ incoming sock = events peer
    ∧ fst (Connection.destroy (snd (connect peer this)))
      = Ret (if fst (await_end (events peer)) then Resolved "ok" else Pending)
    ∧ end_requested <$> socket (snd (Connection.destroy (snd (connect peer this))))
      = Some true.
Proof.
  destruct this as [e u po so enc id], peer as [[[|]|err|] evs];
    unfold connect, Connection.destroy, new_Promise, bind, outer, zoom, get, modify,
      this_socket, update_socket, call_resolve, call_reject; cbn;
    (eexists; split; [reflexivity|]; split; [reflexivity|]);
    destruct (await_end evs) as [[|] rest]; cbn; split; reflexivity.
Qed.

(** ** The login command is one frame *)

Lemma printable_append (a b : string) :
  printable (a +:+ b) = printable a && printable b.
Proof.
  induction a as [|c a IH]; rewrite ?append_cons, ?append_empty; cbn; [reflexivity|].
  rewrite IH. now rewrite andb_assoc.
Qed.

Lemma quote_char_printable (c : ascii) : printable (quote_char c) = true.
Proof. destruct c as [[] [] [] [] [] [] [] []]; reflexivity. Qed.

Lemma QuoteJSONString_printable (s : string) : printable (QuoteJSONString s) = true.
Proof.
  unfold QuoteJSONString. cbn [printable]. rewrite printable_append.
  assert (printable (quote_chars s) = true) as ->.
  { induction s as [|c s IH]; [reflexivity|]. cbn [quote_chars].
    now rewrite printable_append, quote_char_printable, IH. }
  reflexivity.
Qed.

Lemma string_of_uint_printable (d : Decimal.uint) :
  printable (NilEmpty.string_of_uint d) = true.
Proof. induction d; cbn; assumption || reflexivity. Qed.

Lemma string_of_int_printable (d : Decimal.signed_int) :
  printable (NilZero.string_of_int d) = true.
Proof.
  destruct d as [d|d]; cbn; unfold NilZero.string_of_uint;
    destruct d; try reflexivity; apply string_of_uint_printable.
Qed.

Lemma concat_printable (sep : string) (l : list string) :
  printable sep = true → Forall (λ s, printable s = true) l →
  printable (String.concat sep l) = true.
Proof.
  intros Hsep Hl. induction Hl as [|s l Hs Hl IH]; [reflexivity|].
  cbn [String.concat]. destruct l as [|s' l]; [exact Hs|].
  change (s ++ sep ++ String.concat sep (s' :: l))%string
    with (s +:+ sep +:+ String.concat sep (s' :: l)).
  now rewrite !printable_append, Hs, Hsep, IH.
Qed.

Lemma members_printable (rep : string → jsval → jsval) (props : jsobject) :
  Forall (λ s, printable s = true) (member_text <$> members rep props).
Proof.
  induction props as [|[P value] props IH]; cbn [members]; [constructor|].
  unfold SerializeJSONProperty. destruct (rep P value) as [| |n|s]; try exact IH;
    cbn [fmap list_fmap]; constructor; try exact IH;
    unfold member_text; cbn [fst snd];
    rewrite !printable_append, QuoteJSONString_printable; cbn;
    [reflexivity | apply string_of_int_printable | apply QuoteJSONString_printable].
Qed.

Lemma JSON_stringify_printable (value : jsobject) (rep : string → jsval → jsval) :
  printable (JSON_stringify value rep) = true.
Proof.
  unfold JSON_stringify. rewrite !printable_append.
  rewrite concat_printable; [reflexivity | reflexivity | apply members_printable].
Qed.

Lemma printable_no_terminator (s : string) : printable s = true → no_terminator s.
Proof.
  intros Hs a b ->. rewrite printable_append in Hs. cbn in Hs.
  now rewrite andb_false_r in Hs.
Qed.

(** X7. Whatever the client name, the identifier and the credentials
    are, the text of the login command holds no control character:
    [JSON.stringify] escapes them. So the terminator 0x04 occurs in what
    [login] writes only as its last byte, and the command is one
    frame. *)
Theorem login_command_one_frame (client shortid version : string)
    (username password : jsval) (sock : TLSSocket) :
  let this := Connection.constructor client shortid in
  let text := "login " +:+ JSON_stringify (login_data version this username password) replacer in
  printable text = true
  ∧ no_terminator text
  ∧ written <$> socket (snd (login version username password (set_socket (Some sock) this)))
    = Some (written sock ++ [text +:+ String "004" EmptyString]).
Proof.
  intros this text.
  assert (printable text = true) as Hp.
  { unfold text. now rewrite printable_append, JSON_stringify_printable. }
  split_and!; [exact Hp | now apply printable_no_terminator |].
  now rewrite login_writes.
Qed.

(** ** The factory of the pool *)

Lemma connect_run (peer : Peer) (this : Connection) :
  connect peer this
  = (Ret (match handshake peer with
          | SecureConnect true => Resolved "ok"
          | SecureConnect false => Rejected (RString UNAUTHORIZED_CONNECTION)
          | HandshakeError err => Rejected (RError err)
          | NoHandshake => Pending
          end),
     set_socket (Some (match handshake peer with
                       | SecureConnect true => setEncoding (encoding this) (tls_connect peer)
                       | _ => tls_connect peer
                       end)) this).
Proof. destruct this, peer as [[[|]|err|] evs]; reflexivity. Qed.

Lemma on_lookup {A} (r : ref) (m : M Connection A) (w : World) (this : Connection) :
  heap w !! r = Some this →
  on r m w = (fst (m this), set_heap (<[r := snd (m this)]> (heap w)) w).
Proof. intros Hr. unfold on. rewrite Hr. now destruct (m this). Qed.

(** X8. The [create] of the factory makes a new [Connection], connects
    it and logs in. Its promise resolves with the new object exactly
    when the handshake is authorized and the server answers the login
    with ["ok"] and the terminator; otherwise it rejects with what the
    failing step rejected with (the error of the handshake, the
    UNAUTHORIZED_CONNECTION string, the answer of the server, the error
    of the socket), or stays pending with the step that is pending. The
    pool itself is not touched. *)
Theorem create_outcome (version : string) (this : Vndb) (w : World) :
  let client := fresh (dom (heap w)) in
  let peer := hd {| handshake := NoHandshake; events := [] |} (peers w) in
  fst (create (factory version this) w)
  = Ret (match handshake peer with
         | SecureConnect true =>
             match fst (read_events (String "004" EmptyString) "" (events peer)) with
             | Resolved response =>
                 if String.eqb response ("ok" +:+ String "004" EmptyString)
                 then Resolved client else Rejected (RString response)
             | Rejected err => Rejected err
             | Pending => Pending
             end
         | SecureConnect false => Rejected (RString "Secure connection could not be established")
         | HandshakeError err => Rejected (RError err)
         | NoHandshake => Pending
         end)
  ∧ (client ∉ dom (heap w))
  ∧ pool (snd (create (factory version this) w)) = pool w.
Proof.
  intros client peer. split; [|split; [apply is_fresh | apply create_frame]].
  unfold create, factory, new_Promise_async, try_catch, bind, outer, zoom,
    new_Connection, next_peer, on, await, call_resolve, call_reject, modify,
    set_heap, set_shortids, set_peers; cbn -[connect login].
  fold client peer. rewrite lookup_insert_eq, connect_run.
  cbn [encoding Connection.constructor].
  destruct (handshake peer) as [[|]|err|] eqn:Hh; cbn -[login]; try reflexivity.
  rewrite lookup_insert_eq.
  pose proof (login_promise version (credential_value (username this))
                (credential_value (password this))
                (Connection.constructor (clientName this) (hd "" (shortids w)))
                (setEncoding "utf8" (tls_connect peer))) as Hl.
  cbn [eot Connection.constructor incoming setEncoding tls_connect] in Hl.
  destruct (login _ _ _ _) as [o c2]. cbn [fst] in Hl. subst o.
  destruct (fst (read_events _ _ _)) as [|response|e]; cbn; try reflexivity.
  destruct (String.eqb response _); reflexivity.
Qed.

(** X9. The [destroy] of the factory never rejects. Its promise
    resolves with the client when the socket of the client emits 'end';
    for a client without a socket, where [client.destroy()] rejects, and
    for a socket that never emits 'end', it is never settled. *)
Theorem factory_destroy_outcome (version : string) (this : Vndb) (client : ref) (w : World) :
  fst (Pool.destroy (factory version this) client w)
  = Ret (match heap w !! client with
         | Some conn =>
             match socket conn with
             | Some sock => if fst (await_end (incoming sock)) then Resolved client else Pending
             | None => Pending
             end
         | None => Pending
         end).
Proof.
  unfold Pool.destroy, factory, new_Promise_async, bind, outer, zoom, on, await,
    call_resolve, modify; cbn -[Connection.destroy].
  destruct (heap w !! client) as [[e u po [sock|] enc id]|]; [| reflexivity..].
  unfold Connection.destroy, new_Promise, bind, outer, zoom, get, modify,
    this_socket, update_socket, call_resolve, call_reject; cbn.
  destruct (await_end (incoming sock)) as [[|] rest]; reflexivity.
Qed.

(** ** [Vndb.send]: the other paths *)

Section SendPaths.
Variables (version : string) (this : Vndb).

(** The exchange on a Session that has a socket: the message and the
    terminator are written to it, the events of one [read()] are
    consumed, and the promise of [send] becomes the promise of that
    read. *)
Lemma exchange_on_socket (message : string) (c : ref) (w : World)
    (conn : Connection) (sock : TLSSocket) :
  heap w !! c = Some conn → socket conn = Some sock →
  ∃ o w',
    exchange message (Some c) (w, Pending)
    = (o, (w', fst (read_events (eot conn) "" (incoming sock))))
    ∧ heap w'
      = <[c := set_socket
                 (Some (set_incoming (snd (read_events (eot conn) "" (incoming sock)))
                          (socket_write (message +:+ eot conn) sock))) conn]> (heap w).
Proof.
  intros Hconn Hsock. destruct conn as [e u po so enc id]. cbn in Hsock. subst so.
  unfold exchange, try_finally, try_catch, socketID_of, bind, ret, outer, zoom,
    call_resolve, call_reject, modify, await.
  cbn -[on write read release log].
  rewrite (on_lookup _ _ _ _ Hconn). cbn -[on read release log].
  rewrite (on_lookup c read _ _ (lookup_insert_eq _ _ _)).
  unfold read, new_Promise, bind, outer, zoom, get, this_socket, update_socket, modify.
  cbn -[release log read_events].
  destruct (read_events e "" (incoming sock)) as [[|frame|r] rest];
    cbn -[release log]; unfold log, modify, release, new_Promise, bind, outer, zoom, get,
      modify, call_resolve, call_reject; cbn;
    try destruct (decide (c ∈ loans (pool w))); cbn;
    eexists _, _; (split; [reflexivity|]); cbn; now rewrite insert_insert_eq.
Qed.

End SendPaths.

(** X10. When [pool.acquire()] rejects, [send] rejects with the same
    error and does nothing more: nothing is written and
    [pool.release] is not called (the [finally] block stops at
    [client.socketID] of an [undefined] client). *)
Theorem send_acquire_failure (version : string) (this : Vndb) (message : string)
    (w w1 : World) (err : reason) :
  (log (RemoveTokens 1) ;;; log Acquire ;;;
   acquire (poolConfig this) (factory version this)) w = (Ret (Rejected err), w1) →
  send version this message w = (Ret (Rejected err), w1).
Proof.
  unfold send, new_Promise, async_callback, acquire_client, exchange, try_catch,
    try_finally, socketID_of, bind, outer, zoom, log, modify, await, ret, throw,
    call_reject; cbn -[acquire].
  destruct (acquire _ _ _) as [[[|c|r]|e|] w1']; intros H; try discriminate H.
  injection H as <- <-. reflexivity.
Qed.

Lemma send_acquire_failure_witness :
  let refusing := {| handshake := HandshakeError (SocketError "ECONNREFUSED"); events := [] |} in
  let w := init ["a"] [refusing] in
  fst (send "1.0.0" demo "get vn basic (id = 17)" w)
  = Ret (Rejected (RError (SocketError "ECONNREFUSED")))
  ∧ calls (snd (send "1.0.0" demo "get vn basic (id = 17)" w)) = [RemoveTokens 1; Acquire].
Proof.
  intros refusing w.
  assert ((log (RemoveTokens 1) ;;; log Acquire ;;;
           acquire (poolConfig demo) (factory "1.0.0" demo)) w
          = (Ret (Rejected (RError (SocketError "ECONNREFUSED"))),
             snd ((log (RemoveTokens 1) ;;; log Acquire ;;;
                   acquire (poolConfig demo) (factory "1.0.0" demo)) w))) as Hacq
    by (vm_compute; reflexivity).
  rewrite (send_acquire_failure "1.0.0" demo "get vn basic (id = 17)" w _ _ Hacq).
  split; vm_compute; reflexivity.
Defined.

(** X11. [read()] has no timeout: as long as the promise of [send] is
    pending, the Session that [send] acquired stays checked out, and
    [pool.release] has not been called. *)
Theorem send_suspended (version : string) (this : Vndb) (message : string)
    (w w1 w' : World) (c : ref) :
  acquired version this w = Some (c, w1) →
  send version this message w = (Ret Pending, w') →
  c ∈ loans (pool w') ∧ pool w' = pool w1 ∧ calls w' = calls w1.
Proof.
  intros Hacq. pose proof (acquired_loan _ _ _ _ _ Hacq) as Hc.
  rewrite (send_after_acquire _ _ message _ _ _ Hacq).
  destruct (exchange message (Some c) (w1, Pending)) as [o [w2 p]] eqn:Hex.
  cbn [fst snd]. intros [= -> ->].
  destruct (exchange_suspended _ _ _ _ _ Hex) as [Hp Hcalls].
  split_and!; [rewrite Hp; exact Hc | exact Hp | exact Hcalls].
Qed.

Lemma send_suspended_witness :
  let silent := {| handshake := SecureConnect true;
                   events := [Data ("ok" +:+ String "004" EmptyString); Data "resu"] |} in
  let w := init ["a"] [silent] in
  let sent := send "1.0.0" demo "get vn basic (id = 17)" w in
  0 ∈ loans (pool (snd sent))
  ∧ pool (snd sent) = pool (after_acquire w)
  ∧ calls (snd sent) = calls (after_acquire w).
Proof.
  intros silent w sent.
  assert (acquired "1.0.0" demo w = Some (0, after_acquire w)) as Hacq
    by (vm_compute; reflexivity).
  assert (send "1.0.0" demo "get vn basic (id = 17)" w = (Ret Pending, snd sent)) as Hsend
    by (vm_compute; reflexivity).
  exact (send_suspended "1.0.0" demo "get vn basic (id = 17)" w (after_acquire w)
           (snd sent) 0 Hacq Hsend).
Defined.

(** X12. On the Session [c] it acquired, [send] writes the message
    followed by the terminator to the socket, runs one [read()], and
    its promise is the promise of that read: resolved with the frame,
    rejected with the error of the socket, or pending. No other object
    of the store is touched. *)
Theorem send_exchange (version : string) (this : Vndb) (message : string)
    (w w1 : World) (c : ref) (conn : Connection) (sock : TLSSocket) :
  acquired version this w = Some (c, w1) →
  heap w1 !! c = Some conn → socket conn = Some sock →
  ∃ w',
    send version this message w
    = (Ret (fst (read_events (eot conn) "" (incoming sock))), w')
    ∧ heap w' !! c
      = Some (set_socket
                (Some (set_incoming (snd (read_events (eot conn) "" (incoming sock)))
                         (socket_write (message +:+ eot conn) sock))) conn)
    ∧ ∀ r, r ≠ c → heap w' !! r = heap w1 !! r.
Proof.
  intros Hacq Hconn Hsock.
  rewrite (send_after_acquire _ _ message _ _ _ Hacq).
  destruct (exchange_on_socket message c w1 conn sock Hconn Hsock) as (o & w' & -> & Hheap).
  cbn [fst snd]. eexists. split; [reflexivity|]. rewrite Hheap. split.
  - apply lookup_insert_eq.
  - intros r Hr. now apply lookup_insert_ne.
Qed.

Lemma send_exchange_witness :
  let w := init ["a"] [answering] in
  let conn := default (Connection.constructor "demo" "a") (heap (after_acquire w) !! 0) in
  let sock := default (tls_connect answering) (socket conn) in
  ∃ w',
    send "1.0.0" demo "get vn basic (id = 17)" w
    = (Ret (fst (read_events (eot conn) "" (incoming sock))), w')
    ∧ heap w' !! 0
      = Some (set_socket
                (Some (set_incoming (snd (read_events (eot conn) "" (incoming sock)))
                         (socket_write ("get vn basic (id = 17)" +:+ eot conn) sock))) conn)
    ∧ ∀ r, r ≠ 0 → heap w' !! r = heap (after_acquire w) !! r.
Proof.
  intros w conn sock.
  assert (acquired "1.0.0" demo w = Some (0, after_acquire w)) as Hacq
    by (vm_compute; reflexivity).
  assert (heap (after_acquire w) !! 0 = Some conn) as Hconn by (vm_compute; reflexivity).
  assert (socket conn = Some sock) as Hsock by (vm_compute; reflexivity).
  exact (send_exchange "1.0.0" demo "get vn basic (id = 17)" w (after_acquire w) 0
           conn sock Hacq Hconn Hsock).
Defined.

(** ** [Vndb.destroy] *)

#[export] Instance quiet_preorder : PreOrder quiet.
Proof.
  split.
  - intros w. split; reflexivity.
  - intros a b c [H1 H2] [H3 H4]. split; congruence.
Qed.

Lemma on_quiet {A} (r : ref) (m : M Connection A) : stable quiet (on r m).
Proof.
  intros w. unfold on. destruct (heap w !! r) as [this|]; [|reflexivity].
  destruct (m this) as [o this']. split; reflexivity.
Qed.

#[export] Hint Resolve on_quiet : stable.

Section VndbDestroy.
Variables (version : string) (this : Vndb).

Let fac := factory version this.

Lemma factory_destroy_quiet (r : ref) : stable quiet (Pool.destroy fac r).
Proof.
  unfold fac, factory, Pool.destroy. stable_auto.
Qed.

Lemma destroy_all_quiet (rs : list ref) : stable quiet (destroy_all fac rs).
Proof.
  induction rs as [|r rs IH]; cbn [destroy_all]; [apply stable_ret; typeclasses eauto|].
  apply stable_bind; [typeclasses eauto | apply factory_destroy_quiet | intros _; exact IH].
Qed.

Lemma factory_destroy_world (r : ref) (w : World) :
  snd (Pool.destroy fac r w) = snd (on r Connection.destroy w).
Proof.
  unfold fac, factory, Pool.destroy, new_Promise_async, bind, outer, zoom, await,
    call_resolve, modify. cbn -[on].
  destruct (on r Connection.destroy w) as [[[|v|e]|e|] w2]; reflexivity.
Qed.

Lemma connection_destroy_socket (conn : Connection) (sock : TLSSocket) :
  socket conn = Some sock →
  ∃ sock', socket (snd (Connection.destroy conn)) = Some sock'
           ∧ end_requested sock' = true.
Proof.
  destruct conn as [e u po so enc id]; cbn; intros ->.
  unfold Connection.destroy, new_Promise, bind, outer, zoom, get, modify,
    this_socket, update_socket, call_resolve, call_reject; cbn.
  destruct (await_end (incoming sock)) as [[|] rest]; cbn; eauto.
Qed.

(** The [destroy] of the factory on [r']: it ends the socket of [r'],
    and leaves the other objects as they are. *)
Lemma factory_destroy_heap (r' : ref) (w : World) :
  (has_socket r' w → ended r' (snd (Pool.destroy fac r' w)))
  ∧ (∀ r, ended r w → ended r (snd (Pool.destroy fac r' w)))
  ∧ (∀ r, has_socket r w → has_socket r (snd (Pool.destroy fac r' w))).
Proof.
  rewrite factory_destroy_world. unfold on.
  destruct (heap w !! r') as [conn'|] eqn:Hr'.
  - destruct (Connection.destroy conn') as [o conn''] eqn:Hd. unfold set_heap; cbn.
    assert (∀ sock, socket conn' = Some sock →
              ∃ sock', socket conn'' = Some sock' ∧ end_requested sock' = true) as Hend.
    { intros sock Hs. destruct (connection_destroy_socket conn' sock Hs) as (s' & H1 & H2).
      rewrite Hd in H1. eauto. }
    split_and!.
    + intros (conn & sock & Hc & Hs). rewrite Hr' in Hc. injection Hc as <-.
      destruct (Hend sock Hs) as (s' & H1 & H2).
      exists conn'', s'. cbn. rewrite lookup_insert_eq. auto.
    + intros r (conn & sock & Hc & Hs & He). destruct (decide (r = r')) as [->|Hne].
      * rewrite Hr' in Hc. injection Hc as <-. destruct (Hend sock Hs) as (s' & H1 & H2).
        exists conn'', s'. cbn. rewrite lookup_insert_eq. auto.
      * exists conn, sock. cbn. rewrite lookup_insert_ne by congruence. auto.
    + intros r (conn & sock & Hc & Hs). destruct (decide (r = r')) as [->|Hne].
      * rewrite Hr' in Hc. injection Hc as <-. destruct (Hend sock Hs) as (s' & H1 & H2).
        exists conn'', s'. cbn. rewrite lookup_insert_eq. auto.
      * exists conn, sock. cbn. rewrite lookup_insert_ne by congruence. auto.
  - cbn. split_and!; [|auto..].
    intros (conn & sock & Hc & _). rewrite Hr' in Hc. discriminate Hc.
Qed.

Lemma destroy_all_heap (rs : list ref) :
  ∀ w,
    (∀ r, r ∈ rs → has_socket r w → ended r (snd (destroy_all fac rs w)))
    ∧ (∀ r, ended r w → ended r (snd (destroy_all fac rs w)))
    ∧ (∀ r, has_socket r w → has_socket r (snd (destroy_all fac rs w))).
Proof.
  induction rs as [|r' rs IH]; intros w.
  - cbn. split_and!; auto. intros r Hr. inversion Hr.
  - cbn [destroy_all]. unfold bind.
    destruct (factory_destroy_heap r' w) as (H1 & H2 & H3).
    assert (∃ p, fst (Pool.destroy fac r' w) = Ret p) as [p Hp].
    { unfold fac, factory, Pool.destroy.
      destruct (new_Promise_async_ret
                  (p <- outer (on r' Connection.destroy) ;; _ <- await p ;; call_resolve r') w)
        as (p & w2 & ->). eauto. }
    destruct (Pool.destroy fac r' w) as [o w2]. cbn [fst snd] in *. subst o.
    destruct (IH w2) as (I1 & I2 & I3).
    split_and!.
    + intros r [->|Hr]%elem_of_cons Hs; [apply I2, H1, Hs | apply I1; auto].
    + intros r He. apply I2, H2, He.
    + intros r Hs. apply I3, H3, Hs.
Qed.

End VndbDestroy.

Lemma destroy_all_ret (version : string) (this : Vndb) (rs : list ref) :
  ∀ w, fst (destroy_all (factory version this) rs w) = Ret tt.
Proof.
  induction rs as [|r rs IH]; intros w; [reflexivity|].
  cbn [destroy_all]. unfold bind.
  assert (∃ p, fst (Pool.destroy (factory version this) r w) = Ret p) as [p Hp].
  { unfold factory, Pool.destroy.
    destruct (new_Promise_async_ret
                (p <- outer (on r Connection.destroy) ;; _ <- await p ;; call_resolve r) w)
      as (p & w2 & ->). eauto. }
  destruct (Pool.destroy (factory version this) r w) as [o w2]. cbn [fst] in Hp. subst o.
  apply IH.
Qed.

(** X13. [destroy()] never rejects. It calls [pool.drain()], after which
    the pool accepts no acquisition. When no Session is checked out the
    drain resolves, [pool.clear()] is called, the idle queue is emptied,
    [socket.end()] has been called on every idle Session that has a
    socket, and the promise resolves with "ok" whether or not the peers
    have confirmed the closure. While a Session is checked out, the
    promise is pending and [pool.clear()] is not called. *)
Theorem vndb_destroy_outcome (version : string) (this : Vndb) (w : World) :
  ∃ p w',
    Vndb.destroy version this w = (Ret p, w')
    ∧ draining (pool w') = true
    ∧ loans (pool w') = loans (pool w)
    ∧ p = (if decide (loans (pool w) = ∅) then Resolved "ok" else Pending)
    ∧ calls w'
      = calls w ++ (if decide (loans (pool w) = ∅) then [Drain; Clear] else [Drain])
    ∧ available (pool w')
      = (if decide (loans (pool w) = ∅) then [] else available (pool w))
    ∧ ∀ r, loans (pool w) = ∅ → r ∈ available (pool w) → has_socket r w → ended r w'.
Proof.
  unfold Vndb.destroy, new_Promise_async, bind, outer, zoom, log, modify, drain,
    new_Promise, get, await, call_resolve, clear; cbn -[destroy_all].
  destruct (decide (loans (pool w) = ∅)) as [Hl|Hl]; cbn -[destroy_all].
  - match goal with
    | |- context [destroy_all ?f ?rs ?w1] =>
        pose proof (destroy_all_quiet version this rs w1) as [Hp Hc];
        destruct (destroy_all_heap version this rs w1) as (Hended & _ & _);
        pose proof (destroy_all_ret version this rs w1) as Hret;
        destruct (destroy_all f rs w1) as [o w2] eqn:Hd
    end; cbn in *; subst o; eexists _, _; (split; [reflexivity|]); cbn;
      rewrite ?Hp, ?Hc; cbn; rewrite <- ?app_assoc; cbn.
    split_and!; try reflexivity. intros r _ Hr Hs. apply Hended; [exact Hr|].
    destruct Hs as (conn & sock & H1 & H2). exists conn, sock. auto.
  - eexists _, _. split; [reflexivity|]. cbn.
    split_and!; try reflexivity. intros r H; contradiction.
Qed.

(** ** The first [send] of a [Vndb] *)

Lemma fresh_empty : fresh (dom (∅ : gmap nat Connection)) = 0.
Proof. reflexivity. Qed.

Lemma login_run (version : string) (username password : jsval)
    (this : Connection) (sock : TLSSocket) :
  login version username password (set_socket (Some sock) this)
  = (Ret (match fst (read_events (eot this) "" (incoming sock)) with
          | Resolved response =>
              if String.eqb response ("ok" +:+ eot this) then Resolved response
              else Rejected (RString response)
          | Rejected err => Rejected err
          | Pending => Pending
          end),
     set_socket
       (Some (set_incoming (snd (read_events (eot this) "" (incoming sock)))
                (socket_write (login_command version this username password) sock)))
       this).
Proof.
  unfold login, login_command, new_Promise_async, bind, outer, zoom, get, try_catch,
    write, read, new_Promise, this_socket, update_socket, modify, await,
    call_resolve, call_reject; cbn.
  destruct (read_events (eot this) "" (incoming sock)) as [[|response|r] rest]; cbn;
    try reflexivity.
  destruct (String.eqb response ("ok" +:+ eot this)); reflexivity.
Qed.

(** The [create] of the factory against a server that completes the
    handshake and accepts the login. *)
Lemma create_success (version : string) (this : Vndb) (w : World)
    (id : string) (ids : list string) (peer : Peer) (net : list Peer)
    (evs : list SockEvent) :
  shortids w = id :: ids → peers w = peer :: net →
  handshake peer = SecureConnect true →
  read_events (String "004" EmptyString) "" (events peer)
  = (Resolved ("ok" +:+ String "004" EmptyString), evs) →
  let c := fresh (dom (heap w)) in
  let conn := Connection.constructor (clientName this) id in
  create (factory version this) w
  = (Ret (Resolved c),
     {| heap :=
          <[c := set_socket
                   (Some (set_incoming evs
                            (socket_write
                               (login_command version conn
                                  (credential_value (username this))
                                  (credential_value (password this)))
                               (setEncoding "utf8" (tls_connect peer))))) conn]> (heap w);
        shortids := ids; peers := net; pool := pool w; calls := calls w |}).
Proof.
  intros Hids Hpeers Hh Hread c conn.
  unfold create, factory, new_Promise_async, try_catch, bind, outer, zoom,
    new_Connection, next_peer, on, await, call_resolve, call_reject, modify,
    set_heap, set_shortids, set_peers; cbn -[connect login].
  rewrite Hids, Hpeers. cbn -[connect login]. fold c.
  rewrite lookup_insert_eq, connect_run, Hh. cbn -[login].
  rewrite lookup_insert_eq.
  rewrite (login_run version _ _ (Connection.constructor (clientName this) id)
             (setEncoding "utf8" (tls_connect peer))).
  cbn [eot Connection.constructor incoming setEncoding tls_connect].
  rewrite Hread. cbn. rewrite !insert_insert_eq. reflexivity.
Qed.

Lemma acquire_creates (cfg : Config) (fac : Factory) (w w2 : World) (c : ref) :
  draining (pool w) = false → available (pool w) = [] →
  (Z.of_nat (count (pool w)) < max cfg)%Z →
  create fac w = (Ret (Resolved c), w2) →
  acquire cfg fac w = (Ret (Resolved c), set_pool (lend c (pool w2)) w2).
Proof.
  intros Hd Ha Hlt Hc.
  unfold acquire, new_Promise, bind, outer, zoom, get, modify, call_resolve, call_reject.
  cbn -[create]. rewrite Hd, Ha.
  destruct (Z.ltb_spec (Z.of_nat (count (pool w))) (max cfg)) as [_|Hge]; [|lia].
  cbn -[create]. now rewrite Hc.
Qed.

Lemma acquire_idle (cfg : Config) (fac : Factory) (w : World) (r : ref) (rest : list ref) :
  draining (pool w) = false → available (pool w) = r :: rest →
  acquire cfg fac w = (Ret (Resolved r), set_pool (lend r (pool w)) w).
Proof.
  intros Hd Ha.
  unfold acquire, new_Promise, bind, outer, zoom, get, modify, call_resolve, call_reject.
  cbn -[create]. rewrite Hd, Ha. reflexivity.
Qed.

(** [send] on a world in which the acquisition yields a Session that
    has just been logged in and is the only one of the pool. *)
Lemma send_logged_in (version : string) (this : Vndb) (message id : string)
    (w w1 : World) (peer : Peer) (evs : list SockEvent) :
  let conn := Connection.constructor (clientName this) id in
  let answer := read_events (String "004" EmptyString) "" evs in
  acquired version this w = Some (0, w1) →
  heap w1 !! 0
  = Some (set_socket
            (Some (set_incoming evs
                     (socket_write
                        (login_command version conn
                           (credential_value (username this))
                           (credential_value (password this)))
                        (setEncoding "utf8" (tls_connect peer))))) conn) →
  available (pool w1) = [] → loans (pool w1) = {[0]} →
  ∃ w' sock,
    send version this message w = (Ret (fst answer), w')
    ∧ heap w' !! 0 = Some (set_socket (Some sock) conn)
    ∧ written sock
      = [login_command version conn (credential_value (username this))
           (credential_value (password this));
         message +:+ String "004" EmptyString]
    ∧ incoming sock = snd answer
    ∧ (fst answer ≠ Pending → available (pool w') = [0] ∧ loans (pool w') = ∅).
Proof.
  intros conn answer Hacq Hconn Hav Hloans.
  rewrite (send_after_acquire _ _ message _ _ _ Hacq).
  pose proof (acquired_loan _ _ _ _ _ Hacq) as Hloan.
  destruct (exchange_on_socket message 0 w1 _ _ Hconn eq_refl) as (o & w' & Hex & Hheap).
  destruct (exchange_checked_out message 0 w1 Hloan) as (o' & p' & w'' & Hex' & _ & Hset & _).
  rewrite Hex in Hex'. injection Hex' as <- <- <-.
  rewrite Hex. cbn [fst snd eot set_socket conn Connection.constructor incoming set_incoming] in *.
  eexists w', _. split; [reflexivity|]. split.
  { rewrite Hheap. rewrite lookup_insert_eq. reflexivity. }
  split; [reflexivity|]. split; [reflexivity|].
  intros Hsettled. destruct (Hset Hsettled) as (_ & _ & ->).
  unfold give_back; cbn. rewrite Hav, Hloans. split; [reflexivity|].
  apply set_eq. intros x. set_solver.
Qed.

(** X14. The first [send] of a [Vndb] whose [poolMin] is at most 1,
    the default, after the pool that the constructor creates has
    started its Sessions, against a server that completes the handshake
    and accepts the login. One Session is created and logged in, by the
    pool's top-up when [poolMin] is 1 and by the acquisition of [send]
    otherwise; the command is written after the login command, and the
    promise of [send] is the promise of the read that follows. What the
    socket was handed is the login command and then the message, each
    followed by the terminator; when the promise is settled the Session
    is the only idle one. *)
Theorem first_send (version clientName id message : string) (settings : option Settings)
    (ids : list string) (peer : Peer) (net : list Peer) (evs : list SockEvent) :
  (min (poolConfig (Vndb.constructor clientName settings)) ≤ 1)%Z →
  handshake peer = SecureConnect true →
  read_events (String "004" EmptyString) "" (events peer)
  = (Resolved ("ok" +:+ String "004" EmptyString), evs) →
  let this := Vndb.constructor clientName settings in
  let conn := Connection.constructor clientName id in
  let answer := read_events (String "004" EmptyString) "" evs in
  ∃ w' sock,
    send version this message (constructed version this (id :: ids) (peer :: net))
    = (Ret (fst answer), w')
    ∧ heap w' !! 0 = Some (set_socket (Some sock) conn)
    ∧ written sock
      = [login_command version conn (credential_value (username this))
           (credential_value (password this));
         message +:+ String "004" EmptyString]
    ∧ incoming sock = snd answer
    ∧ (fst answer ≠ Pending → available (pool w') = [0] ∧ loans (pool w') = ∅).
Proof.
  intros Hmin Hh Hread this conn answer.
  change (Vndb.constructor clientName settings) with this in Hmin.
  set (w0 := init (id :: ids) (peer :: net)).
  unfold constructed. fold w0.
  destruct (Z.to_nat (min (poolConfig this))) as [|[|n]] eqn:Hn; [| |lia].
  - (* poolMin is 0 or less: the pool is empty, [send] creates the Session *)
    change (run version this (replicate 0 OpEnsureMinimum) w0) with w0.
    set (wl := snd ((log (RemoveTokens 1) ;;; log Acquire) w0)).
    pose proof (create_success version this wl id ids peer net evs
                  eq_refl eq_refl Hh Hread) as Hcreate.
    cbn zeta in Hcreate. change (heap wl) with (∅ : gmap nat Connection) in Hcreate.
    rewrite fresh_empty in Hcreate.
    pose proof (acquire_creates (poolConfig this) (factory version this) wl _ 0
                  eq_refl eq_refl ltac:(cbn; rewrite size_empty; lia) Hcreate) as Hacquire.
    assert (acquired version this w0
            = Some (0, set_pool (lend 0 (pool wl))
                         (snd (create (factory version this) wl)))) as Hacq.
    { unfold acquired. change ((log (RemoveTokens 1) ;;; log Acquire ;;;
                                acquire (poolConfig this) (factory version this)) w0)
        with (acquire (poolConfig this) (factory version this) wl).
      rewrite Hacquire, Hcreate. reflexivity. }
    rewrite Hcreate in Hacq. cbn [snd] in Hacq.
    apply (send_logged_in version this message id w0 _ peer evs Hacq).
    + unfold set_pool; cbn. apply lookup_insert_eq.
    + reflexivity.
    + cbn. apply set_eq. intros x. set_solver.
  - (* poolMin is 1: the top-up has created the Session, [send] finds it idle *)
    assert (min (poolConfig this) = 1)%Z as Hone by lia.
    pose proof (create_success version this w0 id ids peer net evs
                  eq_refl eq_refl Hh Hread) as Hcreate.
    cbn zeta in Hcreate. change (heap w0) with (∅ : gmap nat Connection) in Hcreate.
    rewrite fresh_empty in Hcreate.
    assert (run version this (replicate 1 OpEnsureMinimum) w0
            = set_pool (add_idle 0 (pool w0))
                (snd (create (factory version this) w0))) as Hrun.
    { change (run version this (replicate 1 OpEnsureMinimum) w0)
        with (snd (ensureMinimum (poolConfig this) (factory version this) w0)).
      pose proof (eq_refl : max (poolConfig this) = 10%Z) as Hmax.
      revert Hone Hmax. generalize (poolConfig this). intros cfg Hone Hmax.
      unfold ensureMinimum, bind, get, modify, ret. cbn -[create].
      rewrite Hone, Hmax, size_empty.
      change (Z.of_nat 0 <? Z.min 1 10)%Z with true. cbn -[create].
      rewrite Hcreate. reflexivity. }
    rewrite Hrun, Hcreate. cbn [snd].
    match goal with |- context [send _ _ _ ?x] => set (wc := x) end.
    set (wl := snd ((log (RemoveTokens 1) ;;; log Acquire) wc)).
    pose proof (acquire_idle (poolConfig this) (factory version this) wl 0 []
                  eq_refl eq_refl) as Hacquire.
    assert (acquired version this wc = Some (0, set_pool (lend 0 (pool wl)) wl)) as Hacq.
    { unfold acquired. change ((log (RemoveTokens 1) ;;; log Acquire ;;;
                                acquire (poolConfig this) (factory version this)) wc)
        with (acquire (poolConfig this) (factory version this) wl).
      rewrite Hacquire. reflexivity. }
    apply (send_logged_in version this message id wc _ peer evs Hacq).
    + unfold set_pool; cbn. apply lookup_insert_eq.
    + reflexivity.
    + cbn. apply set_eq. intros x. set_solver.
Qed.

Lemma first_send_witness :
  let this := Vndb.constructor "demo" None in
  let conn := Connection.constructor "demo" "a" in
  let answer := read_events (String "004" EmptyString) ""
                  [Data "results {}"; Data (String "004" EmptyString)] in
  (min (poolConfig this) ≤ 1)%Z
  ∧ available (pool (constructed "1.0.0" this ["a"] [answering])) = [0]
  ∧ ∃ w' sock,
      send "1.0.0" this "get vn basic (id = 17)" (constructed "1.0.0" this ["a"] [answering])
      = (Ret (fst answer), w')
      ∧ heap w' !! 0 = Some (set_socket (Some sock) conn)
      ∧ written sock
        = [login_command "1.0.0" conn (credential_value (username this))
             (credential_value (password this));
           "get vn basic (id = 17)" +:+ String "004" EmptyString]
      ∧ incoming sock = snd answer
      ∧ (fst answer ≠ Pending → available (pool w') = [0] ∧ loans (pool w') = ∅).
Proof.
  intros this conn answer.
  split; [vm_compute; discriminate|]. split; [vm_compute; reflexivity|].
  exact (first_send "1.0.0" "demo" "a" "get vn basic (id = 17)" None [] answering []
           [Data "results {}"; Data (String "004" EmptyString)]
           ltac:(vm_compute; discriminate) eq_refl eq_refl).
Defined.
